(** * Stream ingestion core of the operator dashboard

    A shallow embedding of [frontend/src/services/wsManager.ts]: the envelope
    schema, the [WebSocketManager] class (its four private maps and fields,
    [onGapDetected], [subscribe] and the disposer it returns, [connect],
    [closeAll], [handleMessage]) and the transport objects the manager
    creates; of the stores, of the figures of the execution strip and of the
    wiring in [utils/bootstrapStreams.ts].

    Conventions of the embedding.
    - A JavaScript value is a term of [JSValue]; an object is the list of its
      own properties.  Reading a property that is absent yields [JUndefined].
      Strings are held in (generalised) UTF-8.
    - The schema is read as zod 3 defines it: [z.unknown()] accepts
      [undefined], and a key of the shape whose schema accepts [undefined] may
      be missing from the object.
    - A JavaScript number is a double.  A sequence number, once it passed
      [z.number().int().nonnegative()], is the integer it denotes, a [Z]; the
      code's [+ 1] and [- 1] on it are the additions of doubles: the exact
      result rounded to the nearest double, ties to even ([js_add], [js_sub]).
      They are exact up to 2^53.
    - A callback (subscriber or gap observer) is represented by its reference
      identity, a [nat]; calling it is recorded in the list of calls a method
      returns.  A callback may throw: a [Behaviour] says, for every call,
      whether it does, and the method then ends where the code's control flow
      ends.  Callbacks do not call back into the manager while they run, and
      the listeners of a store return normally.
    - [JSON.parse] and the [WebSocket] constructor belong to the runtime.
      The manager is embedded inside sections that are parametric in them: a
      decoder maps a string to a value or to [None] when it throws
      [SyntaxError]; [WebSocket_accepts url] says whether [new WebSocket(url)]
      returns, or throws.  [Wire.JSON_parse] and [Wire.WebSocket_accepts] are
      concrete ones used in the worked examples. *)

From Stdlib Require Import Ascii String ZArith QArith.
From stdpp Require Import gmap strings list fin_maps.

Set Warnings "-register-all".

Local Open Scope string_scope.
Local Open Scope list_scope.
Local Open Scope Z_scope.

(** ** JavaScript values *)

Inductive JSNumber :=
  | Finite (q : Q)
  | Infinity (negative : bool)
  | NaN.

Inductive JSValue :=
  | JUndefined
  | JNull
  | JBool (b : bool)
  | JNumber (n : JSNumber)
  | JString (s : string)
  | JArray (items : list JSValue)
  | JObject (props : list (string * JSValue))
  | JBinary.                      (* a Blob or an ArrayBuffer: an object without own data properties *)

(** [o[key]] on the own properties of an object. *)
Fixpoint get_prop (props : list (string * JSValue)) (key : string) : JSValue :=
  match props with
  | [] => JUndefined
  | (k, v) :: rest => if String.eqb k key then v else get_prop rest key
  end.

(** [key in o]. *)
Fixpoint has_prop (props : list (string * JSValue)) (key : string) : bool :=
  match props with
  | [] => false
  | (k, _) :: rest => String.eqb k key || has_prop rest key
  end.

(** ** The envelope and its schema *)

Inductive Stream := market | portfolio | system.

Definition stream_name (s : Stream) : string :=
  match s with
  | market => "market"
  | portfolio => "portfolio"
  | system => "system"
  end.

(** [interface Envelope<T>] of [types/domain.ts], at [T = unknown]. *)
Record Envelope := mkEnvelope {
  kind : string;
  stream : Stream;
  sequence : Z;
  payload : JSValue
}.

(** [z.string()] *)
Definition z_string (v : JSValue) : option string :=
  match v with
  | JString s => Some s
  | _ => None
  end.

(** [z.enum(['market', 'portfolio', 'system'])] *)
Definition z_enum_stream (v : JSValue) : option Stream :=
  match v with
  | JString s =>
      if String.eqb s "market" then Some market
      else if String.eqb s "portfolio" then Some portfolio
      else if String.eqb s "system" then Some system
      else None
  | _ => None
  end.

(** [Number.isInteger] on a finite number: the denominator divides the
    numerator. *)
Definition is_integer (q : Q) : bool :=
  (Qnum q mod Zpos (Qden q) =? 0).

Definition integer_value (q : Q) : Z := Qnum q / Zpos (Qden q).

(** [z.number().int().nonnegative()] *)
Definition z_number_int_nonnegative (v : JSValue) : option Z :=
  match v with
  | JNumber (Finite q) =>
      if is_integer q && (0 <=? integer_value q) then Some (integer_value q) else None
  | _ => None
  end.

(** [z.unknown()]: every value passes, [undefined] included, so that the
    key may be missing. *)
Definition z_unknown (v : JSValue) : option JSValue := Some v.

(** [envelopeSchema.safeParse(parsed)]: [Some] is [{ success: true, data }],
    [None] is [{ success: false }].  [z.object] wants a plain object and reads
    each key of the shape from it. *)
Definition envelopeSchema_safeParse (parsed : JSValue) : option Envelope :=
  match parsed with
  | JObject props =>
      match z_string (get_prop props "kind"),
            z_enum_stream (get_prop props "stream"),
            z_number_int_nonnegative (get_prop props "sequence"),
            z_unknown (get_prop props "payload") with
      | Some k, Some s, Some n, Some p => Some (mkEnvelope k s n p)
      | _, _, _, _ => None
      end
  | _ => None
  end.

(** ** Arithmetic of doubles on integers *)

(** The double nearest to the integer [z], ties to even.  Every integer up
    to 2^53 in magnitude is a double; above, a double is a multiple of the
    power of two [2^e] that leaves 53 significant bits. *)
Definition round_to_double (z : Z) : Z :=
  if Z.abs z <=? 2 ^ 53 then z
  else
    let a := Z.abs z in
    let e := Z.log2 a - 52 in
    let m := a / 2 ^ e in
    let r := a mod 2 ^ e in
    let half := 2 ^ (e - 1) in
    let m' := if r <? half then m
              else if half <? r then m + 1
              else if Z.even m then m else m + 1 in
    Z.sgn z * (m' * 2 ^ e).

(** [a + b] and [a - b] on doubles that hold integers. *)
Definition js_add (a b : Z) : Z := round_to_double (a + b).
Definition js_sub (a b : Z) : Z := round_to_double (a - b).

(** ** Callbacks and the calls the manager makes *)

Definition Handler := nat.
Definition GapHandler := nat.

(** One entry per callback invocation, in the order the calls happen.
    [HandlerCall c h env] is [handler(env)] made by the dispatch loop of the
    channel [c]; [GapCall g c expected got] is
    [this.gapHandler(stream, expected, env.sequence)]. *)
Inductive Call :=
  | GapCall (g : GapHandler) (channel : string) (expected got : Z)
  | HandlerCall (channel : string) (h : Handler) (env : Envelope).

Definition is_gap_call (c : Call) : bool :=
  match c with
  | GapCall _ _ _ _ => true
  | HandlerCall _ _ _ => false
  end.

(** The gap signals among a list of calls. *)
Definition gap_calls (cs : list Call) : list Call := List.filter is_gap_call cs.

(** The subscribers invoked by a list of calls, with the channel of the
    dispatch and the envelope each received. *)
Fixpoint invoked (cs : list Call) : list (string * Handler * Envelope) :=
  match cs with
  | [] => []
  | GapCall _ _ _ _ :: rest => invoked rest
  | HandlerCall c h env :: rest => (c, h, env) :: invoked rest
  end.

(** How the callbacks behave during one delivery: whether the call of the
    observer with these arguments, and the call of a subscriber with this
    envelope, throws. *)
Record Behaviour := mkBehaviour {
  observer_throws : GapHandler → string → Z → Z → bool;
  subscriber_throws : Handler → Envelope → bool
}.

(** Every callback returns normally. *)
Definition returning : Behaviour := mkBehaviour (λ _ _ _ _, false) (λ _ _, false).

(** ** The manager *)

Definition SocketId := nat.

(** The private fields of [WebSocketManager]. *)
Record Manager := mkManager {
  sockets : gmap string SocketId;
  handlers : gmap string (list Handler);
  lastSeq : gmap string Z;
  gapHandler : option GapHandler
}.

(** [new WebSocketManager()] *)
Definition new_WebSocketManager : Manager :=
  mkManager ∅ ∅ ∅ None.

Definition set_handlers (m : Manager) (hs : gmap string (list Handler)) : Manager :=
  mkManager (sockets m) hs (lastSeq m) (gapHandler m).

Definition set_lastSeq (m : Manager) (ls : gmap string Z) : Manager :=
  mkManager (sockets m) (handlers m) ls (gapHandler m).

Definition set_sockets (m : Manager) (ss : gmap string SocketId) : Manager :=
  mkManager ss (handlers m) (lastSeq m) (gapHandler m).

(** [this.handlers.get(stream) ?? []] *)
Definition handlers_of (m : Manager) (channel : string) : list Handler :=
  default [] (handlers m !! channel).

(** [onGapDetected(handler)] *)
Definition onGapDetected (m : Manager) (g : GapHandler) : Manager :=
  mkManager (sockets m) (handlers m) (lastSeq m) (Some g).

(** The disposer returned by [subscribe(stream, handler)]:
    [() => this.handlers.set(stream, (this.handlers.get(stream) ?? []).filter((h) => h !== handler))] *)
Definition disposer (channel : string) (handler : Handler) (m : Manager) : Manager :=
  set_handlers m (<[channel := filter (λ h, h ≠ handler) (handlers_of m channel)]> (handlers m)).

(** [subscribe(stream, handler)]: the new state and the disposer. *)
Definition subscribe (m : Manager) (channel : string) (handler : Handler)
  : Manager * (Manager → Manager) :=
  let next := handlers_of m channel ++ [handler] in
  (set_handlers m (<[channel := next]> (handlers m)), disposer channel handler).

(** What leaves a method call that does not return. *)
Inductive Exception :=
  | SyntaxError                        (* thrown by [JSON.parse] *)
  | DOMException                       (* thrown by [new WebSocket(url)] *)
  | ObserverThrew (g : GapHandler)     (* whatever the gap observer threw *)
  | SubscriberThrew (h : Handler).     (* whatever a subscriber threw *)

Record Outcome := mkOutcome {
  after : Manager;               (* the manager once the call has ended *)
  calls : list Call;             (* the callbacks it invoked, in order, the one that threw included *)
  thrown : option Exception      (* [Some e] when the call ended by throwing [e] *)
}.

Section HandleMessage.

(** The runtime's decoder: [None] when [JSON.parse] throws. *)
Variable JSON_parse : string → option JSValue.

(** The behaviour of the callbacks during the call. *)
Variable B : Behaviour.

(** [typeof raw === 'string' ? JSON.parse(raw) : raw] *)
Definition decode (raw : JSValue) : option JSValue :=
  match raw with
  | JString s => JSON_parse s
  | _ => Some raw
  end.

(** [for (const handler of hs) handler(env)] made for the channel [c]: the
    calls made, and the exception that ended the loop if a handler threw. *)
Fixpoint dispatch (c : string) (env : Envelope) (hs : list Handler)
  : list Call * option Exception :=
  match hs with
  | [] => ([], None)
  | h :: rest =>
      if subscriber_throws B h env then ([HandlerCall c h env], Some (SubscriberThrew h))
      else
        let r := dispatch c env rest in
        (HandlerCall c h env :: r.1, r.2)
  end.

(** [this.lastSeq.set(stream, env.sequence)] and the dispatch loop, after the
    calls [before]. *)
Definition store_and_dispatch (m : Manager) (c : string) (env : Envelope)
    (before : list Call) : Outcome :=
  let m' := set_lastSeq m (<[c := sequence env]> (lastSeq m)) in
  let r := dispatch c env (handlers_of m' c) in
  mkOutcome m' (before ++ r.1) r.2.

(** [(prev ?? env.sequence - 1) + 1] *)
Definition expected_after (prev : option Z) (received : Z) : Z :=
  js_add (default (js_sub received 1) prev) 1.

(** The statements of [handleMessage] after [env] is bound. *)
Definition track_and_dispatch (m : Manager) (c : string) (env : Envelope) : Outcome :=
  let prev := lastSeq m !! c in
  let expected := expected_after prev (sequence env) in
  if bool_decide (sequence env ≠ expected) then
    match gapHandler m with
    | Some g =>
        let signal := GapCall g c expected (sequence env) in
        if observer_throws B g c expected (sequence env)
        then mkOutcome m [signal] (Some (ObserverThrew g))
        else store_and_dispatch m c env [signal]
    | None => store_and_dispatch m c env []
    end
  else store_and_dispatch m c env [].

(** [handleMessage(stream, raw)] *)
Definition handleMessage (m : Manager) (c : string) (raw : JSValue) : Outcome :=
  match decode raw with
  | None => mkOutcome m [] (Some SyntaxError)
  | Some parsed =>
      match envelopeSchema_safeParse parsed with
      | None => mkOutcome m [] None
      | Some env => track_and_dispatch m c env
      end
  end.

End HandleMessage.

(** ** Transport objects and the manager's lifecycle *)

(** [WebSocket.readyState] *)
Inductive ReadyState := CONNECTING | OPEN | CLOSING | CLOSED.

(** A [WebSocket] created by [connect]: its address, the channel captured by
    its [onmessage] closure, and its ready state. *)
Record Socket := mkSocket {
  ws_url : string;
  ws_channel : Stream;
  readyState : ReadyState
}.

(** [ws.close()]: starts the closing handshake unless it has started. *)
Definition ws_close (ws : Socket) : Socket :=
  match readyState ws with
  | CONNECTING | OPEN => mkSocket (ws_url ws) (ws_channel ws) CLOSING
  | CLOSING | CLOSED => ws
  end.

(** A manager together with every socket object created so far; a socket is
    named by its position in [heap]. *)
Record World := mkWorld {
  manager : Manager;
  heap : list Socket
}.

Definition new_World : World := mkWorld new_WebSocketManager [].

Record WorldOutcome := mkWorldOutcome {
  world_after : World;
  world_calls : list Call;
  uncaught : option Exception
}.

Definition quiet (w : World) : WorldOutcome := mkWorldOutcome w [] None.

(** [this.sockets.forEach((ws) => ws.close())] *)
Definition close_each (ss : list (string * SocketId)) (hp : list Socket) : list Socket :=
  foldr (λ entry acc, alter ws_close entry.2 acc) hp ss.

(** [closeAll()] *)
Definition closeAll (w : World) : World :=
  mkWorld (set_sockets (manager w) ∅)
          (close_each (map_to_list (sockets (manager w))) (heap w)).

Definition set_readyState (w : World) (ws : SocketId) (r : ReadyState) : World :=
  mkWorld (manager w) (alter (λ s, mkSocket (ws_url s) (ws_channel s) r) ws (heap w)).

(** What can happen to a manager: a call of one of its public methods, a
    call of a disposer, or an event of the transport on one of its sockets.
    A delivery comes with the behaviour of the callbacks during it. *)
Inductive Event :=
  | EOnGapDetected (g : GapHandler)
  | ESubscribe (channel : string) (h : Handler)
  | EDispose (channel : string) (h : Handler)
  | EConnect (channel : Stream) (url : string)
  | ECloseAll
  | EOpened (ws : SocketId)
  | EMessage (ws : SocketId) (raw : JSValue) (b : Behaviour)
  | EClosed (ws : SocketId).

Section Run.

Variable JSON_parse : string → option JSValue.

(** Whether [new WebSocket(url)] returns; it throws otherwise. *)
Variable WebSocket_accepts : string → bool.

(** [connect(stream, url)]: when the constructor throws, nothing is
    assigned. *)
Definition connect (w : World) (channel : Stream) (url : string) : WorldOutcome :=
  if WebSocket_accepts url then
    let ws := length (heap w) in
    quiet (mkWorld (set_sockets (manager w) (<[stream_name channel := ws]> (sockets (manager w))))
                   (heap w ++ [mkSocket url channel CONNECTING]))
  else mkWorldOutcome w [] (Some DOMException).

(** The transport fires [onmessage] on a socket only while it is [OPEN];
    the closure installed by [connect] then runs
    [this.handleMessage(stream, event.data)]. *)
Definition on_message (b : Behaviour) (w : World) (ws : SocketId) (raw : JSValue)
  : WorldOutcome :=
  match heap w !! ws with
  | Some s =>
      match readyState s with
      | OPEN =>
          let o := handleMessage JSON_parse b (manager w) (stream_name (ws_channel s)) raw in
          mkWorldOutcome (mkWorld (after o) (heap w)) (calls o) (thrown o)
      | _ => quiet w
      end
  | None => quiet w
  end.

Definition step (w : World) (e : Event) : WorldOutcome :=
  match e with
  | EOnGapDetected g => quiet (mkWorld (onGapDetected (manager w) g) (heap w))
  | ESubscribe c h => quiet (mkWorld (subscribe (manager w) c h).1 (heap w))
  | EDispose c h => quiet (mkWorld (disposer c h (manager w)) (heap w))
  | EConnect c url => connect w c url
  | ECloseAll => quiet (closeAll w)
  | EOpened ws =>
      match heap w !! ws with
      | Some s =>
          match readyState s with
          | CONNECTING => quiet (set_readyState w ws OPEN)
          | _ => quiet w
          end
      | None => quiet w
      end
  | EMessage ws raw b => on_message b w ws raw
  | EClosed ws => quiet (set_readyState w ws CLOSED)
  end.

(** The event loop: events run to completion one after the other; an
    exception that escapes a callback or a method is reported and the loop
    goes on. *)
Fixpoint run (w : World) (es : list Event) : World * list Call :=
  match es with
  | [] => (w, [])
  | e :: rest =>
      let o := step w e in
      let r := run (world_after o) rest in
      (r.1, world_calls o ++ r.2)
  end.

End Run.

(** ** A concrete runtime

    [Wire.JSON_parse] is a recursive-descent reader of the JSON grammar
    (ECMA-404).  A number literal denotes the double nearest to its decimal
    value, ties to even, infinite beyond the range of doubles.  An object
    keeps one property per key, the last value written under a key winning.
    A [\u] escape is written out in UTF-8, a surrogate pair as the one
    character it encodes. *)

(** Whether the character [c] occurs in [s]. *)
Fixpoint occurs (c : ascii) (s : string) : bool :=
  match s with
  | EmptyString => false
  | String d rest => Ascii.eqb d c || occurs c rest
  end.

Module Wire.

Definition code (c : ascii) : Z := Z.of_nat (nat_of_ascii c).

Definition is_ws (c : ascii) : bool :=
  (code c =? 32) || (code c =? 9) || (code c =? 10) || (code c =? 13).

Fixpoint skip_ws (s : string) : string :=
  match s with
  | String c r => if is_ws c then skip_ws r else s
  | EmptyString => s
  end.

Definition digit_of (c : ascii) : option Z :=
  if (48 <=? code c) && (code c <=? 57) then Some (code c - 48) else None.

Definition hex_of (c : ascii) : option Z :=
  if (48 <=? code c) && (code c <=? 57) then Some (code c - 48)
  else if (65 <=? code c) && (code c <=? 70) then Some (code c - 55)
  else if (97 <=? code c) && (code c <=? 102) then Some (code c - 87)
  else None.

(** A maximal run of digits: its value on top of [acc], how many digits
    were read on top of [n], and what follows. *)
Fixpoint digits (s : string) (acc : Z) (n : nat) : Z * nat * string :=
  match s with
  | String c r =>
      match digit_of c with
      | Some d => digits r (10 * acc + d) (S n)
      | None => (acc, n, s)
      end
  | EmptyString => (acc, n, s)
  end.

(** The value [m * 10 ^ e]. *)
Definition decimal (m e : Z) : Q :=
  if 0 <=? e then Qmake (m * 10 ^ e) 1 else Qmake m (Z.to_pos (10 ^ (- e))).

(** The double nearest to the rational [q], ties to even: 53 significant
    bits, exponents down to -1074 (subnormal below 2^-1022), infinite from
    2^1024 on, as a fraction in lowest terms.  The sign of a zero is not
    kept. *)
Definition to_double (q : Q) : JSNumber :=
  let n := Z.abs (Qnum q) in
  let d := Zpos (Qden q) in
  if n =? 0 then Finite (Qmake 0 1)
  else
    let k := Z.log2 n - Z.log2 d in
    let floor_log2 :=
      if (if 0 <=? k then d * 2 ^ k <=? n else d <=? n * 2 ^ (- k)) then k else k - 1 in
    let e := Z.max (floor_log2 - 52) (- 1074) in
    let num := if 0 <=? e then n else n * 2 ^ (- e) in
    let den := if 0 <=? e then d * 2 ^ e else d in
    let m := num / den in
    let r := num mod den in
    let m' := if 2 * r <? den then m
              else if den <? 2 * r then m + 1
              else if Z.even m then m else m + 1 in
    if (971 <? e) || ((e =? 971) && (m' =? 2 ^ 53)) then Infinity (Qnum q <? 0)
    else if 0 <=? e then Finite (Qmake (Z.sgn (Qnum q) * (m' * 2 ^ e)) 1)
    else Finite (Qred (Qmake (Z.sgn (Qnum q) * m') (Z.to_pos (2 ^ (- e))))).

(** The integer part: [0], or a digit [1-9] followed by digits. *)
Definition parse_int (s : string) : option (Z * string) :=
  match s with
  | String c r =>
      match digit_of c with
      | Some 0 => Some (0, r)
      | Some _ => let '(v, _, r') := digits s 0 0 in Some (v, r')
      | None => None
      end
  | EmptyString => None
  end.

(** The optional fraction: the mantissa extended by the fraction's digits
    and the number of those digits. *)
Definition parse_frac (m : Z) (s : string) : option (Z * Z * string) :=
  match s with
  | String c r =>
      if code c =? 46 then
        match digits r m 0 with
        | (_, O, _) => None
        | (m', n, r') => Some (m', Z.of_nat n, r')
        end
      else Some (m, 0, s)
  | EmptyString => Some (m, 0, s)
  end.

(** The optional exponent. *)
Definition parse_exp (s : string) : option (Z * string) :=
  match s with
  | String c r =>
      if (code c =? 101) || (code c =? 69) then
        let '(neg, r1) :=
          match r with
          | String d r' =>
              if code d =? 45 then (true, r')
              else if code d =? 43 then (false, r')
              else (false, r)
          | EmptyString => (false, r)
          end in
        match digits r1 0 0 with
        | (_, O, _) => None
        | (e, _, r2) => Some (if neg then - e else e, r2)
        end
      else Some (0, s)
  | EmptyString => Some (0, s)
  end.

Definition parse_number (s : string) : option (JSValue * string) :=
  let '(neg, s1) :=
    match s with
    | String c r => if code c =? 45 then (true, r) else (false, s)
    | EmptyString => (false, s)
    end in
  match parse_int s1 with
  | Some (i, s2) =>
      match parse_frac i s2 with
      | Some (m, f, s3) =>
          match parse_exp s3 with
          | Some (e, s4) =>
              Some (JNumber (to_double (decimal (if neg then - m else m) (e - f))), s4)
          | None => None
          end
      | None => None
      end
  | None => None
  end.

Definition escape (c : ascii) : option ascii :=
  if code c =? 34 then Some c                       (* quotation mark *)
  else if code c =? 92 then Some c                  (* reverse solidus *)
  else if code c =? 47 then Some c                  (* solidus *)
  else if code c =? 98 then Some (ascii_of_nat 8)   (* b *)
  else if code c =? 102 then Some (ascii_of_nat 12) (* f *)
  else if code c =? 110 then Some (ascii_of_nat 10) (* n *)
  else if code c =? 114 then Some (ascii_of_nat 13) (* r *)
  else if code c =? 116 then Some (ascii_of_nat 9)  (* t *)
  else None.

Definition byte (n : Z) : ascii := ascii_of_nat (Z.to_nat n).

(** The UTF-8 bytes of the code point [cp]; a lone surrogate is written in
    three bytes like any other code point below 2^16. *)
Definition utf8 (cp : Z) : string :=
  if cp <? 128 then String (byte cp) EmptyString
  else if cp <? 2048 then
    String (byte (192 + cp / 64)) (String (byte (128 + cp mod 64)) EmptyString)
  else if cp <? 65536 then
    String (byte (224 + cp / 4096))
      (String (byte (128 + (cp / 64) mod 64)) (String (byte (128 + cp mod 64)) EmptyString))
  else
    String (byte (240 + cp / 262144))
      (String (byte (128 + (cp / 4096) mod 64))
         (String (byte (128 + (cp / 64) mod 64)) (String (byte (128 + cp mod 64)) EmptyString))).

(** The code unit of the escape [\uXXXX]. *)
Definition unicode (h1 h2 h3 h4 : ascii) : option Z :=
  match hex_of h1, hex_of h2, hex_of h3, hex_of h4 with
  | Some a, Some b, Some c, Some d => Some (4096 * a + 256 * b + 16 * c + d)
  | _, _, _, _ => None
  end.

(** A high surrogate followed by a low surrogate, each written in three
    bytes, is the character they encode together. *)
Fixpoint combine_surrogates (s : string) : string :=
  match s with
  | String a (String b (String c (String d (String e (String f rest)))) as s0) =>
      if (code a =? 237) && (160 <=? code b) && (code b <=? 175)
         && (code d =? 237) && (176 <=? code e) && (code e <=? 191)
      then
        let hi := 53248 + 64 * (code b mod 64) + code c mod 64 in
        let lo := 53248 + 64 * (code e mod 64) + code f mod 64 in
        String.append (utf8 (65536 + 1024 * (hi - 55296) + (lo - 56320)))
                      (combine_surrogates rest)
      else String a (combine_surrogates s0)
  | String a rest => String a (combine_surrogates rest)
  | EmptyString => EmptyString
  end.

(** The characters of a string after its opening quotation mark, up to
    and including the closing one. *)
Fixpoint parse_chars (s : string) : option (string * string) :=
  match s with
  | EmptyString => None
  | String c r =>
      if code c =? 34 then Some (EmptyString, r)
      else if code c =? 92 then
        match r with
        | String e r1 =>
            if code e =? 117 then
              match r1 with
              | String h1 (String h2 (String h3 (String h4 r2))) =>
                  match unicode h1 h2 h3 h4, parse_chars r2 with
                  | Some u, Some (str, rest) => Some (String.append (utf8 u) str, rest)
                  | _, _ => None
                  end
              | _ => None
              end
            else
              match escape e, parse_chars r1 with
              | Some u, Some (str, rest) => Some (String u str, rest)
              | _, _ => None
              end
        | EmptyString => None
        end
      else if code c <? 32 then None
      else
        match parse_chars r with
        | Some (str, rest) => Some (String c str, rest)
        | None => None
        end
  end.

(** [o[key] = v] while an object literal is read. *)
Fixpoint set_prop (props : list (string * JSValue)) (key : string) (v : JSValue)
  : list (string * JSValue) :=
  match props with
  | [] => [(key, v)]
  | (k, old) :: rest =>
      if String.eqb k key then (k, v) :: rest else (k, old) :: set_prop rest key v
  end.

Definition literal (word : string) (v : JSValue) (s : string) : option (JSValue * string) :=
  if String.prefix word s
  then Some (v, String.substring (String.length word) (String.length s - String.length word)%nat s)
  else None.

Fixpoint parse_value (fuel : nat) (s : string) : option (JSValue * string) :=
  match fuel with
  | O => None
  | S n =>
      match skip_ws s with
      | EmptyString => None
      | String c r as s' =>
          if code c =? 34 then
            match parse_chars r with
            | Some (str, rest) => Some (JString (combine_surrogates str), rest)
            | None => None
            end
          else if code c =? 91 then
            match skip_ws r with
            | String d r' => if code d =? 93 then Some (JArray [], r') else parse_elements n r
            | EmptyString => None
            end
          else if code c =? 123 then
            match skip_ws r with
            | String d r' => if code d =? 125 then Some (JObject [], r') else parse_members n r []
            | EmptyString => None
            end
          else if code c =? 116 then literal "true" (JBool true) s'
          else if code c =? 102 then literal "false" (JBool false) s'
          else if code c =? 110 then literal "null" JNull s'
          else parse_number s'
      end
  end
with parse_elements (fuel : nat) (s : string) : option (JSValue * string) :=
  match fuel with
  | O => None
  | S n =>
      match parse_value n s with
      | Some (v, r) =>
          match skip_ws r with
          | String c r' =>
              if code c =? 44 then
                match parse_elements n r' with
                | Some (JArray vs, r2) => Some (JArray (v :: vs), r2)
                | _ => None
                end
              else if code c =? 93 then Some (JArray [v], r')
              else None
          | EmptyString => None
          end
      | None => None
      end
  end
with parse_members (fuel : nat) (s : string) (props : list (string * JSValue))
  : option (JSValue * string) :=
  match fuel with
  | O => None
  | S n =>
      match skip_ws s with
      | String q r =>
          if code q =? 34 then
            match parse_chars r with
            | Some (key, r1) =>
                match skip_ws r1 with
                | String colon r2 =>
                    if code colon =? 58 then
                      match parse_value n r2 with
                      | Some (v, r3) =>
                          match skip_ws r3 with
                          | String c r4 =>
                              if code c =? 44 then parse_members n r4 (set_prop props (combine_surrogates key) v)
                              else if code c =? 125 then Some (JObject (set_prop props (combine_surrogates key) v), r4)
                              else None
                          | EmptyString => None
                          end
                      | None => None
                      end
                    else None
                | EmptyString => None
                end
            | None => None
            end
          else None
      | EmptyString => None
      end
  end.

(** [JSON.parse(text)]: one value, then only white space. *)
Definition JSON_parse (text : string) : option JSValue :=
  match parse_value (S (String.length text)) text with
  | Some (v, rest) =>
      match skip_ws rest with
      | EmptyString => Some v
      | String _ _ => None
      end
  | None => None
  end.

(** [new WebSocket(url)] on the addresses of the worked examples: it
    returns for an absolute address with the scheme [ws] or [wss] and no
    fragment (character 35), and throws on an address with a fragment, as
    every runtime does. *)
Definition WebSocket_accepts (url : string) : bool :=
  (String.prefix "ws://" url || String.prefix "wss://" url)
  && negb (occurs (ascii_of_nat 35) url).

End Wire.

(** ** Wire messages of the worked examples *)

(** The text of a message, written with apostrophes where the wire has
    quotation marks. *)
Fixpoint wire (s : string) : string :=
  match s with
  | EmptyString => EmptyString
  | String c r => String (if Wire.code c =? 39 then ascii_of_nat 34 else c) (wire r)
  end.

Definition tick (n : Z) : JSValue :=
  JObject [("kind", JString "tick"); ("stream", JString "market");
           ("sequence", JNumber (Finite (inject_Z n))); ("payload", JObject [])].

Definition tick_envelope (n : Z) : Envelope := mkEnvelope "tick" market n (JObject []).

(** A tick without the [payload] property. *)
Definition bare_tick : JSValue :=
  JObject [("kind", JString "tick"); ("stream", JString "market");
           ("sequence", JNumber (Finite (inject_Z 1)))].

(** ** The sessions of the worked examples *)

Definition spy : GapHandler := 0%nat.
Definition first_handler : Handler := 1%nat.
Definition second_handler : Handler := 2%nat.

Definition market_url : string := "ws://localhost:8000/ws/market".

Definition tick1_text : string :=
  wire "{'kind':'tick','stream':'market','sequence':1,'payload':{}}".
Definition tick3_text : string :=
  wire "{'kind':'tick','stream':'market','sequence':3,'payload':{}}".
Definition tick5_text : string :=
  wire "{'kind':'tick','stream':'market','sequence':5,'payload':{}}".
Definition tick6_text : string :=
  wire "{'kind':'tick','stream':'market','sequence':6,'payload':{}}".

(** 2^53 and 2^53 + 2 as sequences. *)
Definition tick_2_53_text : string :=
  wire "{'kind':'tick','stream':'market','sequence':9007199254740992,'payload':{}}".
Definition tick_2_53_2_text : string :=
  wire "{'kind':'tick','stream':'market','sequence':9007199254740994,'payload':{}}".

(** An envelope without its channel field. *)
Definition no_channel_text : string :=
  wire "{'kind':'tick','sequence':2,'payload':{}}".

(** An envelope whose channel is not one of the three. *)
Definition unknown_channel_text : string :=
  wire "{'kind':'tick','stream':'orders','sequence':2,'payload':{}}".

(** A text cut off after its first character. *)
Definition truncated_text : string := "{".

(** A manager with the observer [spy] and two subscribers of the market
    channel. *)
Definition watched : Manager :=
  (subscribe (subscribe (onGapDetected new_WebSocketManager spy)
                        "market" first_handler).1
             "market" second_handler).1.

(** The same manager without an observer, after it has seen sequence 1 on
    the market channel. *)
Definition unwatched : Manager :=
  set_lastSeq (subscribe (subscribe new_WebSocketManager "market" first_handler).1
                         "market" second_handler).1
              (<["market" := 1]> ∅).

(** A world with the observer [spy] whose only connection is an open
    connection for the portfolio channel. *)
Definition portfolio_open : World :=
  mkWorld (set_sockets (subscribe (onGapDetected new_WebSocketManager spy)
                                  "portfolio" first_handler).1
                       (<["portfolio" := 0%nat]> ∅))
          [mkSocket "ws://localhost:8000/ws/portfolio" portfolio OPEN].

(** An alert for the system channel. *)
Definition alert_text : string :=
  wire "{'kind':'alert','stream':'system','sequence':0,'payload':{'id':'a1'}}".

Definition alert_envelope : Envelope :=
  mkEnvelope "alert" system 0 (JObject [("id", JString "a1")]).

(** A first use of a manager: an observer, a subscriber, a connection for
    the market channel, and one tick with sequence 1. *)
Definition first_session : list Event :=
  [EOnGapDetected spy; ESubscribe "market" first_handler; EConnect market market_url;
   EOpened 0%nat; EMessage 0%nat (JString tick1_text) returning].

(** A subscribe/connect cycle whose connection is the socket [ws] and whose
    first message carries sequence 5. *)
Definition cycle (ws : SocketId) : list Event :=
  [EOnGapDetected spy; ESubscribe "market" second_handler; EConnect market market_url;
   EOpened ws; EMessage ws (JString tick5_text) returning].

(** The concrete runtime. *)
Definition wire_step := step Wire.JSON_parse Wire.WebSocket_accepts.
Definition wire_run := run Wire.JSON_parse Wire.WebSocket_accepts.

(** Behaviours: the first handler throws; the observer throws. *)
Definition first_throws : Behaviour :=
  mkBehaviour (λ _ _ _ _, false) (λ h _, Nat.eqb h first_handler).

Definition observer_fails : Behaviour :=
  mkBehaviour (λ _ _ _ _, true) (λ _ _, false).

(** ** The envelope validator, as the specification words it *)

Definition kind_ok (props : list (string * JSValue)) : Prop :=
  ∃ k, get_prop props "kind" = JString k.

Definition channel_ok (props : list (string * JSValue)) : Prop :=
  ∃ s, get_prop props "stream" = JString (stream_name s).

Definition sequence_ok (props : list (string * JSValue)) : Prop :=
  ∃ q n, get_prop props "sequence" = JNumber (Finite q) ∧ Qeq q (inject_Z n) ∧ 0 <= n.



(** The acceptance condition without the payload clause. *)
Definition envelope_shape (v : JSValue) : Prop :=
  ∃ props, v = JObject props ∧ kind_ok props ∧ channel_ok props ∧ sequence_ok props.

(** ** Observations of a run *)

Section Observations.

Variable JSON_parse : string → option JSValue.
Variable WebSocket_accepts : string → bool.

(** The validated envelope a step handles, with the channel of the
    connection it arrived on: a message delivered on an open socket that
    decodes and passes the schema. *)
Definition observed (w : World) (e : Event) : option (string * Envelope) :=
  match e with
  | EMessage ws raw _ =>
      match heap w !! ws with
      | Some s =>
          match readyState s, decode JSON_parse raw with
          | OPEN, Some v =>
              match envelopeSchema_safeParse v with
              | Some env => Some (stream_name (ws_channel s), env)
              | None => None
              end
          | _, _ => None
          end
      | None => None
      end
  | _ => None
  end.

Fixpoint observations (w : World) (es : list Event) : list (string * Envelope) :=
  match es with
  | [] => []
  | e :: rest =>
      option_list (observed w e)
      ++ observations (world_after (step JSON_parse WebSocket_accepts w e)) rest
  end.

End Observations.

(** Whether the gap observer is called for [env] on the channel [c] and
    throws: the envelope is then neither stored nor dispatched. *)
Definition blocked (b : Behaviour) (m : Manager) (c : string) (env : Envelope) : bool :=
  let expected := expected_after (lastSeq m !! c) (sequence env) in
  if bool_decide (sequence env ≠ expected) then
    match gapHandler m with
    | Some g => observer_throws b g c expected (sequence env)
    | None => false
    end
  else false.

(** The behaviour that comes with an event. *)
Definition behaviour_of (e : Event) : Behaviour :=
  match e with
  | EMessage _ _ b => b
  | _ => returning
  end.

Section Acceptances.

Variable JSON_parse : string → option JSValue.
Variable WebSocket_accepts : string → bool.

(** The validated envelope a step handles and stores: one that is observed
    and not blocked by a throwing observer. *)
Definition accepted (w : World) (e : Event) : option (string * Envelope) :=
  match observed JSON_parse w e with
  | Some (c, env) => if blocked (behaviour_of e) (manager w) c env then None else Some (c, env)
  | None => None
  end.

Fixpoint acceptances (w : World) (es : list Event) : list (string * Envelope) :=
  match es with
  | [] => []
  | e :: rest =>
      option_list (accepted w e)
      ++ acceptances (world_after (step JSON_parse WebSocket_accepts w e)) rest
  end.

End Acceptances.

(** The sequence numbers observed on the channel [c], in order. *)
Definition sequences_on (c : string) (obs : list (string * Envelope)) : list Z :=
  omap (λ o, if String.eqb o.1 c then Some (sequence o.2) else None) obs.

(** Each number is the one before it plus one; the first one follows
    [prev] when there is one and is free otherwise. *)
Fixpoint consecutive (prev : option Z) (l : list Z) : Prop :=
  match l with
  | [] => True
  | x :: rest =>
      match prev with
      | Some p => x = p + 1
      | None => True
      end ∧ consecutive (Some x) rest
  end.

(** A call that is a gap signal for the channel [c]. *)
Definition is_gap_on (c : string) (call : Call) : Prop :=
  match call with
  | GapCall _ c' _ _ => c' = c
  | HandlerCall _ _ _ => False
  end.

(** A call that invokes the subscriber [h] from a dispatch on the channel [c]. *)
Definition is_call_of (c : string) (h : Handler) (call : Call) : Prop :=
  match call with
  | GapCall _ _ _ _ => False
  | HandlerCall c' h' _ => c' = c ∧ h' = h
  end.

(** The handlers a dispatch loop reaches: those before the first one that
    throws, and that one. *)
Fixpoint reached (b : Behaviour) (env : Envelope) (hs : list Handler) : list Handler :=
  match hs with
  | [] => []
  | h :: rest => h :: if subscriber_throws b h env then [] else reached b env rest
  end.

(** The handler whose exception ends a dispatch loop. *)
Definition first_thrower (b : Behaviour) (env : Envelope) (hs : list Handler)
  : option Handler :=
  List.find (λ h, subscriber_throws b h env) hs.

(** ** The history of a channel *)

(** The gap reports a tracker that starts from [prev] makes on the
    sequences [l] when each of them gets stored: one pair (expected,
    received) for every number that is not the one expected after its
    predecessor. *)
Fixpoint mismatches (prev : option Z) (l : list Z) : list (Z * Z) :=
  match l with
  | [] => []
  | x :: rest =>
      (if bool_decide (x ≠ expected_after prev x) then [(expected_after prev x, x)] else [])
      ++ mismatches (Some x) rest
  end.

(** The gap signals for the channel [c] among a list of calls: observer,
    expected and received sequence. *)
Definition gaps_on (c : string) (cs : list Call) : list (GapHandler * (Z * Z)) :=
  omap (λ call,
          match call with
          | GapCall g c' e x => if String.eqb c' c then Some (g, (e, x)) else None
          | HandlerCall _ _ _ => None
          end) cs.

(** The events of the transport. *)
Definition is_transport (e : Event) : Prop :=
  match e with
  | EOpened _ | EMessage _ _ _ | EClosed _ => True
  | _ => False
  end.

(** The event comes with callbacks whose gap observer returns normally. *)
Definition observer_returns (e : Event) : Prop :=
  ∀ g c x y, observer_throws (behaviour_of e) g c x y = false.

(** Every stored sequence is a non-negative integer stored under a channel
    name. *)
Definition sequences_valid (m : Manager) : Prop :=
  ∀ c n, lastSeq m !! c = Some n → 0 <= n ∧ ∃ ch, c = stream_name ch.

(** Every entry of the connection map names a socket that exists and was
    created for the channel of the entry. *)
Definition sockets_valid (w : World) : Prop :=
  ∀ c ws, sockets (manager w) !! c = Some ws →
    ∃ s, heap w !! ws = Some s ∧ stream_name (ws_channel s) = c.

(** No socket is open or connecting. *)
Definition all_closed (w : World) : Prop :=
  ∀ ws s, heap w !! ws = Some s → readyState s = CLOSING ∨ readyState s = CLOSED.

(** Every socket is held in the connection map. *)
Definition sockets_all_held (w : World) : Prop :=
  ∀ ws s, heap w !! ws = Some s → ∃ c, sockets (manager w) !! c = Some ws.

(** The object an envelope is: its four properties. *)
Definition envelope_value (env : Envelope) : JSValue :=
  JObject [("kind", JString (kind env)); ("stream", JString (stream_name (stream env)));
           ("sequence", JNumber (Finite (inject_Z (sequence env))));
           ("payload", payload env)].

(** ** Domain records ([types/domain.ts]) *)

Inductive Side := BUY | SELL.
Inductive PositionSide := LONG | SHORT.
Inductive OrderType := MARKET | LIMIT | STOP | STOP_LIMIT.
Inductive OrderStatus := PENDING | PARTIAL | FILLED | CANCELED | REJECTED.
Inductive Severity := CRITICAL | WARN | INFO.

Module Position.
Record t := mk {
  symbol : string;
  side : PositionSide;
  quantity : JSNumber;
  entryPrice : JSNumber;
  currentPrice : JSNumber;
  unrealizedPnl : JSNumber;
  sector : option string;
  cluster : option string
}.
End Position.

Module Order.
Record t := mk {
  id : string;
  symbol : string;
  side : Side;
  type : OrderType;
  quantity : JSNumber;
  limitPrice : option JSNumber;
  status : OrderStatus;
  submittedAt : JSNumber
}.
End Order.

Module FillEvent.
Record t := mk {
  orderId : string;
  symbol : string;
  side : Side;
  quantity : JSNumber;
  price : JSNumber;
  ts : JSNumber
}.
End FillEvent.

Module AlertMessage.
Record t := mk {
  id : string;
  ts : JSNumber;
  severity : Severity;
  message : string;
  source : string;
  acknowledged : bool
}.

(** [{ ...a, acknowledged: true }] *)
Definition acknowledge (a : t) : t :=
  mk (id a) (ts a) (severity a) (message a) (source a) true.
End AlertMessage.

Module StrategySignal.
Record t := mk {
  strategyId : string;
  symbol : string;
  signal : Z;
  strength : JSNumber;
  ts : JSNumber
}.
End StrategySignal.

(** ** The stores

    A store is its state; an action maps the state before to the state
    after ([set] merges what the action returns into the state).  An object
    used as a dictionary is the finite map of its own properties. *)

(** The names every plain object inherits from [Object.prototype]; reading
    one of them from an object without such an own property yields a
    function (or, for [__proto__], the prototype), never [undefined]. *)
Definition Object_prototype_keys : list string :=
  ["constructor"; "hasOwnProperty"; "isPrototypeOf"; "propertyIsEnumerable";
   "toLocaleString"; "toString"; "valueOf"; "__proto__";
   "__defineGetter__"; "__defineSetter__"; "__lookupGetter__"; "__lookupSetter__"].

(** What [o[key]] yields on a dictionary of values of type [A]. *)
Inductive Read (A : Type) :=
  | Own (a : A)          (* the own property *)
  | Inherited            (* a member of [Object.prototype] *)
  | Undefined.

Arguments Own {A} a.
Arguments Inherited {A}.
Arguments Undefined {A}.

Definition read {A : Type} (o : gmap string A) (key : string) : Read A :=
  match o !! key with
  | Some a => Own a
  | None => if bool_decide (key ∈ Object_prototype_keys) then Inherited else Undefined
  end.

Module alertStore.

Record AlertState := mk { alerts : list AlertMessage.t }.

Definition initial : AlertState := mk [].

(** [addAlert: (alert) => set((s) => ({ alerts: [alert, ...s.alerts].slice(0, 5000) }))] *)
Definition addAlert (alert : AlertMessage.t) (s : AlertState) : AlertState :=
  mk (take 5000%nat (alert :: alerts s)).

(** [acknowledge: (id) => set((s) => ({ alerts: s.alerts.map((a) =>
    (a.id === id ? { ...a, acknowledged: true } : a)) }))] *)
Definition acknowledge (id : string) (s : AlertState) : AlertState :=
  mk (map (λ a, if String.eqb (AlertMessage.id a) id then AlertMessage.acknowledge a else a)
          (alerts s)).

End alertStore.

Module orderStore.

Record OrderState := mk {
  activeOrders : gmap string Order.t;
  history : list Order.t;
  fills : list FillEvent.t
}.

Definition initial : OrderState := mk ∅ [] [].

(** [upsertOrder] *)
Definition upsertOrder (order : Order.t) (s : OrderState) : OrderState :=
  mk (<[Order.id order := order]> (activeOrders s))
     (take 5000%nat (order :: history s))
     (fills s).

(** [addFill] *)
Definition addFill (fill : FillEvent.t) (s : OrderState) : OrderState :=
  mk (activeOrders s) (history s) (take 5000%nat (fill :: fills s)).

End orderStore.

Module riskStore.

(** The [breaches] field of the risk store. *)
Definition addBreach (alert : AlertMessage.t) (breaches : list AlertMessage.t)
  : list AlertMessage.t :=
  take 500%nat (alert :: breaches).

End riskStore.

Module positionStore.

Record PositionState := mk { positions : gmap string Position.t }.

Definition initial : PositionState := mk ∅.

(** [Object.fromEntries(entries)]: the entries are written in order, a later
    one over an earlier one with the same key. *)
Definition Object_fromEntries {A : Type} (entries : list (string * A)) : gmap string A :=
  foldl (λ o entry, <[entry.1 := entry.2]> o) ∅ entries.

(** [setPositions: (positions) =>
      set({ positions: Object.fromEntries(positions.map((p) => [p.symbol, p])) })] *)
Definition setPositions (ps : list Position.t) (s : PositionState) : PositionState :=
  mk (Object_fromEntries (map (λ p, (Position.symbol p, p)) ps)).

(** [usePosition(symbol)]: [s.positions[symbol]] *)
Definition usePosition (symbol : string) (s : PositionState) : Read Position.t :=
  read (positions s) symbol.

End positionStore.

Module uiStore.

Inductive MainView := COMMAND | POSITIONS | ORDERS | STRATEGIES | BACKTEST | RISK | SYSTEM.
Inductive Range := R1H | R1D | R1W | R1M | RALL.

Record UiState := mk {
  activeView : MainView;
  range : Range;
  panelCollapsed : gmap string bool
}.

Definition initial : UiState := mk COMMAND R1D ∅.

(** Whether [s.panelCollapsed[panel]] is truthy. *)
Definition collapsed (s : UiState) (panel : string) : bool :=
  match read (panelCollapsed s) panel with
  | Own b => b
  | Inherited => true
  | Undefined => false
  end.

(** [togglePanel: (panel) => set((s) => ({ panelCollapsed:
      { ...s.panelCollapsed, [panel]: !s.panelCollapsed[panel] } }))] *)
Definition togglePanel (panel : string) (s : UiState) : UiState :=
  mk (activeView s) (range s)
     (<[panel := negb (collapsed s panel)]> (panelCollapsed s)).

End uiStore.

Module strategyStore.

Record StrategyState := mk {
  enabled : gmap string bool;
  signals : gmap string StrategySignal.t
}.

Definition initial : StrategyState := mk ∅ ∅.

(** [`${signal.strategyId}:${signal.symbol}`] *)
Definition signal_key (signal : StrategySignal.t) : string :=
  String.append (StrategySignal.strategyId signal)
                (String.append ":" (StrategySignal.symbol signal)).

(** [setStrategyEnabled] *)
Definition setStrategyEnabled (id : string) (on : bool) (s : StrategyState) : StrategyState :=
  mk (<[id := on]> (enabled s)) (signals s).

(** [upsertSignal] *)
Definition upsertSignal (signal : StrategySignal.t) (s : StrategyState) : StrategyState :=
  mk (enabled s) (<[signal_key signal := signal]> (signals s)).

End strategyStore.

Definition colon : ascii := ascii_of_nat 58.

(** ** The execution strip ([ExecutionStrip.tsx]) *)

Module ExecutionStrip.

(** [Object.values(s.activeOrders)], up to the order of the values, which
    the figures below do not depend on. *)
Definition orders (s : orderStore.OrderState) : list Order.t :=
  (map_to_list (orderStore.activeOrders s)).*2.

Definition is_pending (o : Order.t) : bool :=
  match Order.status o with
  | PENDING | PARTIAL => true
  | _ => false
  end.

(** [orders.filter((o) => o.status === 'PENDING' || o.status === 'PARTIAL').length] *)
Definition pending_among (os : list Order.t) : nat :=
  length (filter (λ o, is_pending o = true) os).

Definition pending (s : orderStore.OrderState) : nat := pending_among (orders s).

(** [s.fills.slice(0, 12)] *)
Definition tape (s : orderStore.OrderState) : list FillEvent.t :=
  take 12%nat (orderStore.fills s).

(** The figure after [TRADES:]: [fills.length] of the slice. *)
Definition trades (s : orderStore.OrderState) : nat := length (tape s).

End ExecutionStrip.

(** ** Stream processors ([services/streamProcessors.ts]) *)

Definition toMarketTick (data : Envelope) : JSValue := payload data.
Definition toOrderEvent (data : Envelope) : JSValue := payload data.
Definition toPositionSnapshot (data : Envelope) : JSValue := payload data.
Definition toRiskMetrics (data : Envelope) : JSValue := payload data.
Definition toAlert (data : Envelope) : JSValue := payload data.

(** ** The wiring ([utils/bootstrapStreams.ts]) *)

(** The casts [env as never] check nothing: a store action receives the
    payload as it is.  What follows says, for every decoded value, whether
    the call of the action throws a [TypeError] before the store changes. *)

Definition nullish (v : JSValue) : bool :=
  match v with
  | JUndefined | JNull => true
  | _ => false
  end.

(** [v[key]] for a value that is not [undefined] or [null] and a key that
    no prototype defines ([symbol], [id]). *)
Definition member (v : JSValue) (key : string) : JSValue :=
  match v with
  | JObject props => get_prop props key
  | _ => JUndefined
  end.

(** Whether the conversion of [v] to a property key throws: an object with
    an own [toString] property (data, hence not callable) has no usable
    conversion, and an array converts its elements. *)
Fixpoint to_key_throws (v : JSValue) : bool :=
  match v with
  | JObject props => has_prop props "toString"
  | JArray items => existsb to_key_throws items
  | _ => false
  end.

(** [upsertTick(tick)]: [{ ...s.prices, [tick.symbol]: tick }] *)
Definition upsertTick_throws (tick : JSValue) : bool :=
  nullish tick || to_key_throws (member tick "symbol").

(** [setPositions(positions)]:
    [Object.fromEntries(positions.map((p) => [p.symbol, p]))] *)
Definition setPositions_throws (positions : JSValue) : bool :=
  match positions with
  | JArray items => existsb (λ p, nullish p || to_key_throws (member p "symbol")) items
  | _ => true
  end.

(** [upsertOrder(order)]: [{ ...s.activeOrders, [order.id]: order }], for an
    [order] that passed the [in] test. *)
Definition upsertOrder_throws (order : JSValue) : bool :=
  to_key_throws (member order "id").

(** The store action a subscriber of [bootstrapStreams] calls, with its
    argument. *)
Inductive StoreAction :=
  | UpsertTick (tick : JSValue)
  | SetPositions (positions : JSValue)
  | AddFill (fill : JSValue)
  | UpsertOrder (order : JSValue)
  | SetMetrics (metrics : JSValue)
  | AddAlert (alert : JSValue).

(** [addFill], [setMetrics] and [addAlert] keep their argument without
    looking into it. *)
Definition action_throws (a : StoreAction) : bool :=
  match a with
  | UpsertTick tick => upsertTick_throws tick
  | SetPositions positions => setPositions_throws positions
  | UpsertOrder order => upsertOrder_throws order
  | AddFill _ | SetMetrics _ | AddAlert _ => false
  end.

(** What the call of a subscriber does: the store action it completes, or a
    [TypeError] that leaves the stores as they are. *)
Inductive Forwarding :=
  | Forwards (action : StoreAction)
  | ThrowsTypeError.

Definition throws (f : Forwarding) : bool :=
  match f with
  | ThrowsTypeError => true
  | Forwards _ => false
  end.

Definition forward (a : StoreAction) : Forwarding :=
  if action_throws a then ThrowsTypeError else Forwards a.

(** ['orderId' in event]: [None] is the [TypeError] the operator throws on
    a value that is not an object. *)
Definition orderId_in (event : JSValue) : option bool :=
  match event with
  | JObject props => Some (has_prop props "orderId")
  | JArray _ | JBinary => Some false
  | _ => None
  end.

(** [(env) => market.upsertTick(toMarketTick(env as never))] *)
Definition market_subscriber (env : Envelope) : Forwarding :=
  forward (UpsertTick (toMarketTick env)).

(** The subscriber of the portfolio channel. *)
Definition portfolio_subscriber (env : Envelope) : Forwarding :=
  if String.eqb (kind env) "position_snapshot" then
    forward (SetPositions (toPositionSnapshot env))
  else
    let event := toOrderEvent env in
    match orderId_in event with
    | None => ThrowsTypeError
    | Some true => forward (AddFill event)
    | Some false => forward (UpsertOrder event)
    end.

(** The subscriber of the system channel. *)
Definition system_subscriber (env : Envelope) : Forwarding :=
  if String.eqb (kind env) "risk_metrics" then forward (SetMetrics (toRiskMetrics env))
  else forward (AddAlert (toAlert env)).

(** The three closures, by reference. *)
Definition on_market : Handler := 0%nat.
Definition on_portfolio : Handler := 1%nat.
Definition on_system : Handler := 2%nat.

Definition subscriber_of (ch : Stream) : Handler :=
  match ch with
  | market => on_market
  | portfolio => on_portfolio
  | system => on_system
  end.


(** [import.meta.env.VITE_WS_BASE_URL ?? 'ws://localhost:8000/ws'] *)
Definition ws_base (VITE_WS_BASE_URL : option string) : string :=
  default "ws://localhost:8000/ws" VITE_WS_BASE_URL.

Section Bootstrap.

Variable WebSocket_accepts : string → bool.

(** A statement after a call of [connect]: skipped when the call threw. *)
Definition and_then (o : WorldOutcome) (next : World → WorldOutcome) : WorldOutcome :=
  match uncaught o with
  | Some _ => o
  | None => next (world_after o)
  end.

(** [bootstrapStreams()]: the manager and its sockets when it returns, or
    when a [connect] throws. *)
Definition bootstrapStreams (VITE_WS_BASE_URL : option string) : WorldOutcome :=
  let ws := new_WebSocketManager in
  let ws := (subscribe ws "market" on_market).1 in
  let ws := (subscribe ws "portfolio" on_portfolio).1 in
  let ws := (subscribe ws "system" on_system).1 in
  let base := ws_base VITE_WS_BASE_URL in
  and_then (connect WebSocket_accepts (mkWorld ws []) market (String.append base "/market"))
    (λ w, and_then (connect WebSocket_accepts w portfolio (String.append base "/portfolio"))
            (λ w, connect WebSocket_accepts w system (String.append base "/system"))).

End Bootstrap.

(** The function [bootstrapStreams()] returns: [() => ws.closeAll()]. *)
Definition cleanup (w : World) : World := closeAll w.

(** ** Values of the further examples *)

Definition zero : JSNumber := Finite (inject_Z 0).

Definition sample_alert (id : string) : AlertMessage.t :=
  AlertMessage.mk id zero WARN "stale data" "feed" false.

Definition sample_order (id : string) (status : OrderStatus) : Order.t :=
  Order.mk id "BTC-USD" BUY LIMIT zero None status zero.

Definition sample_signal (strategyId symbol : string) : StrategySignal.t :=
  StrategySignal.mk strategyId symbol 1 zero zero.

(** A portfolio envelope that carries no payload. *)
Definition bare_order_text : string :=
  wire "{'kind':'order','stream':'portfolio','sequence':4}".

Definition bare_order_props : list (string * JSValue) :=
  [("kind", JString "order"); ("stream", JString "portfolio");
   ("sequence", JNumber (Finite (inject_Z 4)))].

(** The manager after its first session. *)
Definition after_first_session : World := (wire_run new_World first_session).1.

(** Out of order traffic on the market connection: 3, then 1 again, then 5. *)
Definition disorder : list Event :=
  [EMessage 0%nat (JString tick3_text) returning;
   EMessage 0%nat (JString tick1_text) returning;
   EMessage 0%nat (JString tick5_text) returning].

(** The same traffic when the observer throws on the first of them. *)
Definition disorder_blocked : list Event :=
  [EMessage 0%nat (JString tick3_text) observer_fails;
   EMessage 0%nat (JString tick1_text) returning;
   EMessage 0%nat (JString tick5_text) returning].

(** A reconnection of the market channel and a subscription elsewhere. *)
Definition reconnection : list Event :=
  [ECloseAll; EConnect market market_url; EOpened 1%nat;
   EMessage 1%nat (JString tick5_text) first_throws; ESubscribe "system" second_handler].

(** The transport opens the portfolio connection and delivers on it. *)
Definition portfolio_traffic : list Event :=
  [EOpened 1%nat; EMessage 1%nat (JString tick5_text) returning].

(** The behaviour of the subscribers of [bootstrapStreams] that their
    bodies decide. *)
Definition wired : Behaviour :=
  mkBehaviour (λ _ _ _ _, false)
    (λ h env,
       match h with
       | 0%nat => throws (market_subscriber env)
       | 1%nat => throws (portfolio_subscriber env)
       | 2%nat => throws (system_subscriber env)
       | _ => false
       end).

(** The application once [bootstrapStreams] has returned. *)
Definition application : World := world_after (bootstrapStreams Wire.WebSocket_accepts None).

(** ** Properties of the validator *)

Lemma z_string_Some v k : z_string v = Some k ↔ v = JString k.
Proof. destruct v; simpl; split; congruence. Qed.

Lemma z_enum_stream_name s : z_enum_stream (JString (stream_name s)) = Some s.
Proof. by destruct s. Qed.

Lemma z_enum_stream_Some v s : z_enum_stream v = Some s ↔ v = JString (stream_name s).
Proof.
  split; [| intros ->; apply z_enum_stream_name].
  destruct v; simpl; try discriminate.
  repeat (destruct (String.eqb _ _) eqn:E;
          [apply String.eqb_eq in E; subst; intros [= <-]; reflexivity | clear E]).
  discriminate.
Qed.

Lemma is_integer_spec q : is_integer q = true ↔ ∃ n, Qeq q (inject_Z n).
Proof.
  unfold is_integer, Qeq, inject_Z. destruct q as [a d]; simpl. split.
  - intros H%Z.eqb_eq. exists (a / Z.pos d).
    rewrite Z.mul_1_r. rewrite Z.mul_comm. by apply Z.div_exact.
  - intros [n Hn]. apply Z.eqb_eq. rewrite Z.mul_1_r in Hn. subst a.
    by apply Z.mod_mul.
Qed.

Lemma integer_value_spec q n : Qeq q (inject_Z n) → integer_value q = n.
Proof.
  unfold integer_value, Qeq, inject_Z. destruct q as [a d]; simpl.
  rewrite Z.mul_1_r. intros ->. by apply Z.div_mul.
Qed.

Lemma z_number_Some v n :
  z_number_int_nonnegative v = Some n ↔
  ∃ q, v = JNumber (Finite q) ∧ Qeq q (inject_Z n) ∧ 0 <= n.
Proof.
  split.
  - destruct v as [| | |[q| |]| | | |]; simpl; try discriminate.
    destruct (is_integer q) eqn:Hi; simpl; [| discriminate].
    destruct (0 <=? integer_value q) eqn:Hn; [| discriminate].
    intros [= <-]. apply is_integer_spec in Hi as [k Hk].
    exists q. rewrite (integer_value_spec q k Hk) in *.
    split; [done |]. split; [done | by apply Z.leb_le].
  - intros (q & -> & Hq & Hn). simpl.
    assert (Hi : is_integer q = true) by (apply is_integer_spec; eauto).
    rewrite Hi, (integer_value_spec q n Hq). simpl.
    apply Z.leb_le in Hn. by rewrite Hn.
Qed.

Lemma safeParse_Some v env :
  envelopeSchema_safeParse v = Some env ↔
  ∃ props, v = JObject props
           ∧ get_prop props "kind" = JString (kind env)
           ∧ get_prop props "stream" = JString (stream_name (stream env))
           ∧ (∃ q, get_prop props "sequence" = JNumber (Finite q)
                   ∧ Qeq q (inject_Z (sequence env)) ∧ 0 <= sequence env)
           ∧ payload env = get_prop props "payload".
Proof.
  split.
  - destruct v; simpl; try discriminate.
    destruct (z_string _) as [k|] eqn:Hk; [| discriminate].
    destruct (z_enum_stream _) as [s|] eqn:Hs; [| discriminate].
    destruct (z_number_int_nonnegative _) as [n|] eqn:Hn; [| discriminate].
    intros [= <-]. simpl. exists props.
    apply z_string_Some in Hk. apply z_enum_stream_Some in Hs.
    apply z_number_Some in Hn. done.
  - intros (props & -> & Hk & Hs & Hn & Hp). simpl.
    apply z_string_Some in Hk. apply z_enum_stream_Some in Hs.
    apply z_number_Some in Hn. rewrite Hk, Hs, Hn. simpl.
    destruct env; simpl in *. by subst.
Qed.

Lemma safeParse_shape v : is_Some (envelopeSchema_safeParse v) ↔ envelope_shape v.
Proof.
  split.
  - intros [env (props & -> & Hk & Hs & (q & Hq) & _)%safeParse_Some].
    exists props. split; [done |].
    split; [by exists (kind env) |]. split; [by exists (stream env) |].
    by exists q, (sequence env).
  - intros (props & -> & [k Hk] & [s Hs] & (q & n & Hq & Hqn & Hn)).
    exists (mkEnvelope k s n (get_prop props "payload")).
    apply safeParse_Some. exists props. simpl. repeat split; try done.
    by exists q.
Qed.

Lemma safeParse_tick n : 0 <= n → envelopeSchema_safeParse (tick n) = Some (tick_envelope n).
Proof.
  intros Hn. apply safeParse_Some. eexists. split; [reflexivity |]. simpl.
  repeat split. exists (inject_Z n). by repeat split.
Qed.

(** Each failed check of the schema: a kind that is missing or not a string,
    a channel field outside the fixed set, a sequence that is missing, not a
    number, not an integer or negative, or a value that is not an object. *)
Lemma failed_check_rejected v :
  (∀ props, v ≠ JObject props)
  ∨ (∃ props, v = JObject props
       ∧ ((∀ k, get_prop props "kind" ≠ JString k)
          ∨ (∀ s, get_prop props "stream" ≠ JString (stream_name s))
          ∨ (∀ q, get_prop props "sequence" ≠ JNumber (Finite q))
          ∨ (∃ q, get_prop props "sequence" = JNumber (Finite q)
                  ∧ ((∀ n, ¬ Qeq q (inject_Z n)) ∨ Qlt q (inject_Z 0))))) →
  ¬ envelope_shape v.
Proof.
  intros H (props & -> & [k Hk] & [s Hs] & (q & n & Hq & Hqn & Hn)).
  destruct H as [H | (props' & [= <-] & [H | [H | [H | (q' & Hq' & H)]]])].
  - by apply (H props).
  - by apply (H k).
  - by apply (H s).
  - by apply (H q).
  - rewrite Hq in Hq'. injection Hq' as <-. destruct H as [H | H].
    + by apply (H n).
    + rewrite Hqn in H. unfold Qlt, inject_Z in H. simpl in H. lia.
Qed.

Lemma bare_tick_from_wire :
  Wire.JSON_parse (wire "{'kind':'tick','stream':'market','sequence':1}") = Some bare_tick.
Proof. vm_compute. reflexivity. Qed.



(** ** Arithmetic of doubles *)

Lemma round_to_double_exact z : Z.abs z <= 2 ^ 53 → round_to_double z = z.
Proof. intros H. unfold round_to_double. apply Z.leb_le in H. by rewrite H. Qed.

Lemma js_add_exact a b : Z.abs (a + b) <= 2 ^ 53 → js_add a b = a + b.
Proof. apply round_to_double_exact. Qed.

Lemma js_sub_exact a b : Z.abs (a - b) <= 2 ^ 53 → js_sub a b = a - b.
Proof. apply round_to_double_exact. Qed.

(** The first message of a channel expects its own sequence, up to 2^53. *)
Lemma expected_after_first x : 0 <= x <= 2 ^ 53 → expected_after None x = x.
Proof.
  intros H. unfold expected_after. simpl.
  rewrite js_sub_exact by lia. rewrite js_add_exact by lia. lia.
Qed.

(** After [p], the next sequence expected is [p + 1], below 2^53. *)
Lemma expected_after_next p x : 0 <= p < 2 ^ 53 → expected_after (Some p) x = p + 1.
Proof. intros H. unfold expected_after. simpl. apply js_add_exact. lia. Qed.

Lemma expected_after_stored p x : expected_after (Some p) x = js_add p 1.
Proof. reflexivity. Qed.

(** From 2^53 on, adding one is not exact. *)
Lemma js_add_2_53 : js_add (2 ^ 53) 1 = 2 ^ 53.
Proof. vm_compute. reflexivity. Qed.

Lemma expected_after_first_2_53_2 : expected_after None (2 ^ 53 + 2) = 2 ^ 53.
Proof. vm_compute. reflexivity. Qed.

Section Messages.

Variable JSON_parse : string → option JSValue.
Variable WebSocket_accepts : string → bool.

Local Abbreviation handle := (handleMessage JSON_parse).
Local Abbreviation deliver := (on_message JSON_parse).

(** *** Equations of [handleMessage] *)

Lemma handleMessage_thrown b m c raw :
  decode JSON_parse raw = None → handle b m c raw = mkOutcome m [] (Some SyntaxError).
Proof. unfold handleMessage. by intros ->. Qed.

Lemma handleMessage_rejected b m c raw v :
  decode JSON_parse raw = Some v → envelopeSchema_safeParse v = None →
  handle b m c raw = mkOutcome m [] None.
Proof. unfold handleMessage. by intros -> ->. Qed.

Lemma handleMessage_validated b m c raw v env :
  decode JSON_parse raw = Some v → envelopeSchema_safeParse v = Some env →
  handle b m c raw = track_and_dispatch b m c env.
Proof. unfold handleMessage. by intros -> ->. Qed.

(** What [handleMessage] does in each of its three cases. *)
Lemma handleMessage_cases b m c raw :
  (decode JSON_parse raw = None ∧ handle b m c raw = mkOutcome m [] (Some SyntaxError))
  ∨ (∃ v, decode JSON_parse raw = Some v ∧ envelopeSchema_safeParse v = None
          ∧ handle b m c raw = mkOutcome m [] None)
  ∨ (∃ v env, decode JSON_parse raw = Some v ∧ envelopeSchema_safeParse v = Some env
              ∧ handle b m c raw = track_and_dispatch b m c env).
Proof.
  unfold handleMessage. destruct (decode _ _) as [v|]; [| by left].
  right. destruct (envelopeSchema_safeParse v) as [env|] eqn:E.
  - right. by exists v, env.
  - left. by exists v.
Qed.

Lemma on_message_open b w ws s raw :
  heap w !! ws = Some s → readyState s = OPEN →
  deliver b w ws raw =
    let o := handle b (manager w) (stream_name (ws_channel s)) raw in
    mkWorldOutcome (mkWorld (after o) (heap w)) (calls o) (thrown o).
Proof. unfold on_message. by intros -> ->. Qed.

Lemma on_message_not_open b w ws raw :
  (∀ s, heap w !! ws = Some s → readyState s ≠ OPEN) → deliver b w ws raw = quiet w.
Proof.
  unfold on_message. intros H. destruct (heap w !! ws) as [s|]; [| done].
  specialize (H s eq_refl). by destruct (readyState s).
Qed.

(** C1: the code does not do what the claim says.  On a raw string that the
    decoder cannot decode, [handleMessage] ends by throwing [SyntaxError]: the
    message is not turned into a rejection, and on an open connection the
    exception escapes the [onmessage] callback uncaught.  The manager is left
    as it was and no callback runs. *)
Theorem handleMessage_throws_on_malformed_text
    (b : Behaviour) (m : Manager) (c text : string) :
  JSON_parse text = None →
  handle b m c (JString text) = mkOutcome m [] (Some SyntaxError)
  ∧ ∀ w ws s, heap w !! ws = Some s → readyState s = OPEN →
      uncaught (deliver b w ws (JString text)) = Some SyntaxError
      ∧ world_after (deliver b w ws (JString text)) = w.
Proof.
  intros Hp. split; [by apply handleMessage_thrown |].
  intros w ws s Hs Ho. rewrite (on_message_open _ _ _ _ _ Hs Ho). simpl.
  rewrite handleMessage_thrown by done. simpl. by destruct w.
Qed.

(** C4: a message that decodes but fails the envelope checks (its decoded
    value is not an object with a string kind, a channel of the fixed set and
    an integer sequence >= 0) is dropped: [handleMessage] returns normally,
    invokes no handler and no gap observer, and leaves the manager, with the
    last-accepted sequence of every channel, as it was; the same holds for
    its delivery on any socket. *)
Theorem invalid_envelope_dropped
    (b : Behaviour) (m : Manager) (c : string) (raw v : JSValue) :
  decode JSON_parse raw = Some v → ¬ envelope_shape v →
  handle b m c raw = mkOutcome m [] None
  ∧ lastSeq (after (handle b m c raw)) = lastSeq m
  ∧ ∀ w ws, deliver b w ws raw = quiet w.
Proof.
  intros Hd Hv.
  assert (Hr : envelopeSchema_safeParse v = None).
  { destruct (envelopeSchema_safeParse v) eqn:E; [| done].
    exfalso. apply Hv, safeParse_shape. by rewrite E. }
  assert (H : ∀ m' c', handle b m' c' raw = mkOutcome m' [] None)
    by (intros; by eapply handleMessage_rejected).
  split; [apply H |]. split; [by rewrite H |].
  intros w ws. unfold on_message.
  destruct (heap w !! ws) as [s|]; [| done].
  destruct (readyState s); try done. rewrite H. by destruct w.
Qed.

End Messages.

(** ** The dispatch loop *)

Lemma dispatch_calls b c env hs :
  (dispatch b c env hs).1 = map (λ h, HandlerCall c h env) (reached b env hs).
Proof.
  induction hs as [| h hs IH]; [done |]. simpl.
  destruct (subscriber_throws b h env); [done |]. simpl. by rewrite IH.
Qed.

Lemma dispatch_thrown b c env hs :
  (dispatch b c env hs).2 = SubscriberThrew <$> first_thrower b env hs.
Proof.
  induction hs as [| h hs IH]; [done |]. unfold first_thrower in *. simpl.
  destruct (subscriber_throws b h env); [done |]. simpl. by rewrite IH.
Qed.

Lemma gap_calls_dispatch b c env hs : gap_calls (dispatch b c env hs).1 = [].
Proof. rewrite dispatch_calls. induction (reached b env hs); [done | by simpl]. Qed.

Lemma invoked_handler_calls c env (l : list Handler) :
  invoked (map (λ h, HandlerCall c h env) l) = map (λ h, (c, h, env)) l.
Proof. induction l as [| h l IH]; [done |]. simpl. by rewrite IH. Qed.

Lemma invoked_dispatch b c env hs :
  invoked (dispatch b c env hs).1 = map (λ h, (c, h, env)) (reached b env hs).
Proof. rewrite dispatch_calls. apply invoked_handler_calls. Qed.

(** When no handler throws the loop reaches them all. *)
Lemma reached_all b env hs :
  first_thrower b env hs = None → reached b env hs = hs.
Proof.
  unfold first_thrower. induction hs as [| h hs IH]; [done |]. simpl.
  destruct (subscriber_throws b h env); [discriminate |]. intros H. by rewrite IH.
Qed.

Lemma first_thrower_None b env hs :
  first_thrower b env hs = None ↔ ∀ h, h ∈ hs → subscriber_throws b h env = false.
Proof.
  unfold first_thrower. induction hs as [| h hs IH]; simpl.
  - split; [intros _ h Hh; by apply elem_of_nil in Hh | done].
  - destruct (subscriber_throws b h env) eqn:E.
    + split; [discriminate |]. intros H. specialize (H h (list_elem_of_here _ _)). congruence.
    + rewrite IH. split.
      * intros H h' [-> | Hh]%elem_of_cons; [done | by apply H].
      * intros H h' Hh. apply H. by apply list_elem_of_further.
Qed.

Lemma reached_returning env hs : reached returning env hs = hs.
Proof. induction hs as [| h hs IH]; [done |]. simpl. by rewrite IH. Qed.

(** The loop reaches the handlers before the first one that throws, and
    that one; the others are not reached. *)
Lemma reached_until b env hs h :
  first_thrower b env hs = Some h →
  ∃ l1 l2, hs = l1 ++ h :: l2 ∧ reached b env hs = l1 ++ [h]
           ∧ subscriber_throws b h env = true
           ∧ ∀ h', h' ∈ l1 → subscriber_throws b h' env = false.
Proof.
  unfold first_thrower. induction hs as [| x hs IH]; [discriminate |]. simpl.
  destruct (subscriber_throws b x env) eqn:E.
  - intros [= ->]. exists [], hs. repeat split; try done.
    intros h' Hh. by apply elem_of_nil in Hh.
  - intros (l1 & l2 & -> & Hr & Ht & Hl)%IH. exists (x :: l1), l2.
    simpl. rewrite Hr. repeat split; try done.
    intros h' [-> | Hh]%elem_of_cons; [done | by apply Hl].
Qed.

Lemma reached_prefix b env hs : reached b env hs `prefix_of` hs.
Proof.
  induction hs as [| h hs IH]; [done |]. simpl.
  destruct (subscriber_throws b h env).
  - by exists hs.
  - by apply prefix_cons.
Qed.

Lemma reached_elem_of b env hs h : h ∈ reached b env hs → h ∈ hs.
Proof. intros Hh. destruct (reached_prefix b env hs) as [k Hk]. rewrite Hk. set_solver. Qed.

(** ** The sequence tracker *)

Lemma store_lastSeq b m c env before :
  lastSeq (after (store_and_dispatch b m c env before)) !! c = Some (sequence env).
Proof. simpl. apply lookup_insert_eq. Qed.

Lemma store_calls b m c env before :
  calls (store_and_dispatch b m c env before)
  = before ++ map (λ h, HandlerCall c h env) (reached b env (handlers_of m c)).
Proof. unfold store_and_dispatch. simpl. by rewrite dispatch_calls. Qed.

Lemma store_thrown b m c env before :
  thrown (store_and_dispatch b m c env before)
  = SubscriberThrew <$> first_thrower b env (handlers_of m c).
Proof. unfold store_and_dispatch. simpl. by rewrite dispatch_thrown. Qed.

(** The four courses of the tracker. *)
Lemma track_expected b m c env :
  sequence env = expected_after (lastSeq m !! c) (sequence env) →
  track_and_dispatch b m c env = store_and_dispatch b m c env [].
Proof. intros H. unfold track_and_dispatch. simpl. case_bool_decide; done. Qed.

Lemma track_no_observer b m c env :
  gapHandler m = None → track_and_dispatch b m c env = store_and_dispatch b m c env [].
Proof. intros Hg. unfold track_and_dispatch. simpl. rewrite Hg. by case_bool_decide. Qed.

Lemma track_signalled b m c env g :
  gapHandler m = Some g →
  sequence env ≠ expected_after (lastSeq m !! c) (sequence env) →
  observer_throws b g c (expected_after (lastSeq m !! c) (sequence env)) (sequence env) = false →
  track_and_dispatch b m c env
  = store_and_dispatch b m c env
      [GapCall g c (expected_after (lastSeq m !! c) (sequence env)) (sequence env)].
Proof.
  intros Hg Hne Ht. unfold track_and_dispatch. simpl. rewrite Hg.
  rewrite bool_decide_eq_true_2 by done. by rewrite Ht.
Qed.

Lemma track_observer_threw b m c env g :
  gapHandler m = Some g →
  sequence env ≠ expected_after (lastSeq m !! c) (sequence env) →
  observer_throws b g c (expected_after (lastSeq m !! c) (sequence env)) (sequence env) = true →
  track_and_dispatch b m c env
  = mkOutcome m [GapCall g c (expected_after (lastSeq m !! c) (sequence env)) (sequence env)]
              (Some (ObserverThrew g)).
Proof.
  intros Hg Hne Ht. unfold track_and_dispatch. simpl. rewrite Hg.
  rewrite bool_decide_eq_true_2 by done. by rewrite Ht.
Qed.

(** An envelope is blocked exactly when the call ends with the exception of
    the observer; the manager is then as before. *)
Lemma track_blocked b m c env :
  blocked b m c env = true →
  after (track_and_dispatch b m c env) = m
  ∧ invoked (calls (track_and_dispatch b m c env)) = []
  ∧ ∃ g, gapHandler m = Some g ∧ thrown (track_and_dispatch b m c env) = Some (ObserverThrew g).
Proof.
  unfold blocked, track_and_dispatch. simpl. case_bool_decide; [| discriminate].
  destruct (gapHandler m) as [g|]; [| discriminate]. intros ->. simpl. eauto.
Qed.

Lemma track_accepted b m c env :
  blocked b m c env = false →
  after (track_and_dispatch b m c env) = set_lastSeq m (<[c := sequence env]> (lastSeq m))
  ∧ invoked (calls (track_and_dispatch b m c env))
    = map (λ h, (c, h, env)) (reached b env (handlers_of m c))
  ∧ thrown (track_and_dispatch b m c env)
    = SubscriberThrew <$> first_thrower b env (handlers_of m c).
Proof.
  unfold blocked, track_and_dispatch. simpl. case_bool_decide.
  - destruct (gapHandler m) as [g|].
    + intros ->. split; [done |]. split; [| apply dispatch_thrown].
      simpl. apply invoked_dispatch.
    + intros _. split; [done |]. split; [apply invoked_dispatch | apply dispatch_thrown].
  - intros _. split; [done |]. split; [apply invoked_dispatch | apply dispatch_thrown].
Qed.

(** The manager after the tracker, in both cases. *)
Lemma track_after b m c env :
  after (track_and_dispatch b m c env)
  = if blocked b m c env then m else set_lastSeq m (<[c := sequence env]> (lastSeq m)).
Proof.
  destruct (blocked b m c env) eqn:E.
  - by apply track_blocked.
  - by apply track_accepted.
Qed.

Lemma track_lastSeq_other b m c c' env :
  c ≠ c' → lastSeq (after (track_and_dispatch b m c env)) !! c' = lastSeq m !! c'.
Proof.
  intros Hc. rewrite track_after. destruct (blocked b m c env); [done |].
  simpl. by apply lookup_insert_ne.
Qed.

Lemma track_handlers b m c env :
  handlers (after (track_and_dispatch b m c env)) = handlers m.
Proof. rewrite track_after. by destruct (blocked b m c env). Qed.

Lemma track_gapHandler b m c env :
  gapHandler (after (track_and_dispatch b m c env)) = gapHandler m.
Proof. rewrite track_after. by destruct (blocked b m c env). Qed.

Lemma track_sockets b m c env :
  sockets (after (track_and_dispatch b m c env)) = sockets m.
Proof. rewrite track_after. by destruct (blocked b m c env). Qed.

(** The subscribers invoked are the handlers of the channel the loop
    reaches, unless the observer threw. *)
Lemma track_invoked b m c env :
  invoked (calls (track_and_dispatch b m c env))
  = if blocked b m c env then []
    else map (λ h, (c, h, env)) (reached b env (handlers_of m c)).
Proof.
  destruct (blocked b m c env) eqn:E.
  - by apply track_blocked.
  - by apply track_accepted.
Qed.

(** At most one gap signal per message, about that message. *)
Lemma track_gap_calls b m c env :
  gap_calls (calls (track_and_dispatch b m c env))
  = match gapHandler m with
    | Some g =>
        let expected := expected_after (lastSeq m !! c) (sequence env) in
        if bool_decide (sequence env ≠ expected)
        then [GapCall g c expected (sequence env)] else []
    | None => []
    end.
Proof.
  unfold track_and_dispatch. simpl. case_bool_decide.
  - destruct (gapHandler m) as [g|].
    + destruct (observer_throws _ _ _ _ _); [done |]. simpl.
      fold (gap_calls (dispatch b c env (handlers_of m c)).1).
      by rewrite gap_calls_dispatch.
    + apply gap_calls_dispatch.
  - simpl. rewrite gap_calls_dispatch. by destruct (gapHandler m).
Qed.

(** Every call of the tracker is made for the channel of the connection. *)
Lemma track_calls_channel b m c env call :
  call ∈ calls (track_and_dispatch b m c env) →
  match call with
  | GapCall _ c' _ x => c' = c ∧ x = sequence env
  | HandlerCall c' h env' => c' = c ∧ env' = env ∧ h ∈ handlers_of m c
  end.
Proof.
  assert (Hd : ∀ before, call ∈ calls (store_and_dispatch b m c env before) →
            call ∈ before ∨ ∃ h, call = HandlerCall c h env ∧ h ∈ handlers_of m c).
  { intros before. rewrite store_calls. intros [H | H]%elem_of_app; [by left | right].
    apply list_elem_of_fmap in H as (h & -> & Hh). exists h. split; [done |].
    by eapply reached_elem_of. }
  unfold track_and_dispatch. simpl. case_bool_decide.
  - destruct (gapHandler m) as [g|].
    + destruct (observer_throws _ _ _ _ _).
      * simpl. by intros ->%list_elem_of_singleton.
      * intros [->%list_elem_of_singleton | (h & -> & Hh)]%Hd; done.
    + intros [Hn%elem_of_nil | (h & -> & Hh)]%Hd; done.
  - intros [Hn%elem_of_nil | (h & -> & Hh)]%Hd; done.
Qed.

Section Tracker.

Variable JSON_parse : string → option JSValue.

Local Abbreviation handle := (handleMessage JSON_parse).

(** C2, amended: with a gap observer [g] registered, when two consecutive
    validated envelopes accepted on a channel carry the sequences s then s'
    with s below 2^53 and s' <> s + 1, handling the second one calls the
    observer exactly once, with (channel, s + 1, s'), before anything else.
    If the observer returns, the stored last-accepted sequence of the
    channel becomes s' (whatever the order of s and s') and the envelope is
    dispatched to the subscribers of the channel in registration order, up
    to and including the first one that throws: to all of them when none
    throws.  If the observer throws, the call ends there: the stored sequence
    is still s and no subscriber is invoked. *)
Theorem gap_signal_on_mismatch
    (b b' : Behaviour) (m : Manager) (c : string) (g : GapHandler)
    (raw raw' v v' : JSValue) (env env' : Envelope) :
  gapHandler m = Some g →
  decode JSON_parse raw = Some v → envelopeSchema_safeParse v = Some env →
  decode JSON_parse raw' = Some v' → envelopeSchema_safeParse v' = Some env' →
  blocked b m c env = false →
  sequence env < 2 ^ 53 →
  sequence env' ≠ sequence env + 1 →
  let m1 := after (handle b m c raw) in
  let o := handle b' m1 c raw' in
  let signal := GapCall g c (sequence env + 1) (sequence env') in
  gap_calls (calls o) = [signal]
  ∧ (observer_throws b' g c (sequence env + 1) (sequence env') = false →
       calls o = signal :: map (λ h, HandlerCall c h env') (reached b' env' (handlers_of m c))
       ∧ lastSeq (after o) !! c = Some (sequence env')
       ∧ thrown o = SubscriberThrew <$> first_thrower b' env' (handlers_of m c)
       ∧ (first_thrower b' env' (handlers_of m c) = None →
            invoked (calls o) = map (λ h, (c, h, env')) (handlers_of m c)
            ∧ thrown o = None))
  ∧ (observer_throws b' g c (sequence env + 1) (sequence env') = true →
       calls o = [signal]
       ∧ after o = m1
       ∧ lastSeq (after o) !! c = Some (sequence env)
       ∧ thrown o = Some (ObserverThrew g)).
Proof.
  intros Hg Hd Hv Hd' Hv' Hb Hs Hne m1 o signal. subst m1 o signal.
  rewrite (handleMessage_validated _ b m c raw v env Hd Hv).
  rewrite (handleMessage_validated _ b' _ c raw' v' env' Hd' Hv').
  set (m1 := after (track_and_dispatch b m c env)).
  assert (Hn : 0 <= sequence env).
  { by apply safeParse_Some in Hv as (props & _ & _ & _ & (q & _ & _ & Hn) & _). }
  assert (Hm1 : m1 = set_lastSeq m (<[c := sequence env]> (lastSeq m))).
  { subst m1. by rewrite track_after, Hb. }
  assert (Hl : lastSeq m1 !! c = Some (sequence env)).
  { rewrite Hm1. simpl. apply lookup_insert_eq. }
  assert (Hg1 : gapHandler m1 = Some g) by (by rewrite Hm1).
  assert (Hh1 : handlers_of m1 c = handlers_of m c) by (by rewrite Hm1).
  assert (He : expected_after (lastSeq m1 !! c) (sequence env') = sequence env + 1).
  { rewrite Hl. apply expected_after_next. lia. }
  split; [| split].
  - rewrite track_gap_calls, Hg1. cbn zeta. rewrite He.
    by rewrite bool_decide_eq_true_2.
  - intros Ht. rewrite (track_signalled b' m1 c env' g Hg1); rewrite ?He; try done.
    rewrite store_calls, store_thrown, store_lastSeq, Hh1.
    split; [done |]. split; [done |]. split; [done |].
    intros Hnone. rewrite Hnone. split; [| done].
    rewrite reached_all by done. cbn [invoked]. apply invoked_handler_calls.
  - intros Ht. rewrite (track_observer_threw b' m1 c env' g Hg1); rewrite ?He; done.
Qed.

End Tracker.

(** ** Steps and runs *)

Lemma handlers_of_set_eq m c hs :
  handlers_of (set_handlers m (<[c := hs]> (handlers m))) c = hs.
Proof. unfold handlers_of. simpl. by rewrite lookup_insert_eq. Qed.

Lemma handlers_of_set_ne m c c' hs :
  c ≠ c' → handlers_of (set_handlers m (<[c := hs]> (handlers m))) c' = handlers_of m c'.
Proof. intros. unfold handlers_of. simpl. by rewrite lookup_insert_ne. Qed.

Lemma handlers_of_track b m c c' env :
  handlers_of (after (track_and_dispatch b m c env)) c' = handlers_of m c'.
Proof. unfold handlers_of. by rewrite track_handlers. Qed.

Lemma consecutive_seqZ prev k n :
  (∀ p, prev = Some p → k = p + 1) → consecutive prev (seqZ k (Z.of_nat n)).
Proof.
  revert prev k. induction n as [| n IH]; intros prev k Hp; [done |].
  rewrite seqZ_cons by lia. simpl. split.
  - destruct prev as [p|]; [by apply Hp | done].
  - replace (Z.pred (Z.of_nat (S n))) with (Z.of_nat n) by lia.
    apply IH. intros p [= <-]. lia.
Qed.

Lemma seqZ_bounded k n bound :
  k + Z.of_nat n <= bound + 1 → Forall (λ x, x <= bound) (seqZ k (Z.of_nat n)).
Proof.
  intros H. apply Forall_forall. intros x Hx%elem_of_seqZ. lia.
Qed.

Lemma sequences_on_cons c c' env obs :
  sequences_on c ((c', env) :: obs)
  = (if String.eqb c' c then [sequence env] else []) ++ sequences_on c obs.
Proof. unfold sequences_on. simpl. by destruct (String.eqb c' c). Qed.

Section Runs.

Variable JSON_parse : string → option JSValue.
Variable WebSocket_accepts : string → bool.

Local Abbreviation step' := (step JSON_parse WebSocket_accepts).
Local Abbreviation run' := (run JSON_parse WebSocket_accepts).
Local Abbreviation observed' := (observed JSON_parse).
Local Abbreviation observations' := (observations JSON_parse WebSocket_accepts).

Lemma observed_inv w e c env :
  observed' w e = Some (c, env) →
  ∃ ws raw b s v, e = EMessage ws raw b ∧ heap w !! ws = Some s ∧ readyState s = OPEN
    ∧ decode JSON_parse raw = Some v ∧ envelopeSchema_safeParse v = Some env
    ∧ c = stream_name (ws_channel s).
Proof.
  destruct e; try discriminate. simpl.
  destruct (heap w !! ws) as [s|] eqn:Hs; [| discriminate].
  destruct (readyState s) eqn:Hr; try discriminate.
  destruct (decode JSON_parse raw) as [v|] eqn:Hd; [| discriminate].
  destruct (envelopeSchema_safeParse v) as [env0|] eqn:Hv; [| discriminate].
  intros [= <- <-]. by exists ws, raw, b, s, v.
Qed.

Lemma observed_nonneg w e c env : observed' w e = Some (c, env) → 0 <= sequence env.
Proof.
  intros (ws & raw & b & s & v & _ & _ & _ & _ & Hv & _)%observed_inv.
  by apply safeParse_Some in Hv as (props & _ & _ & _ & (q & _ & _ & Hn) & _).
Qed.

Lemma step_observed w e c env :
  observed' w e = Some (c, env) →
  step' w e =
    let o := track_and_dispatch (behaviour_of e) (manager w) c env in
    mkWorldOutcome (mkWorld (after o) (heap w)) (calls o) (thrown o).
Proof.
  intros (ws & raw & b & s & v & -> & Hs & Hr & Hd & Hv & ->)%observed_inv.
  simpl. unfold on_message, handleMessage. by rewrite Hs, Hr, Hd, Hv.
Qed.

Lemma on_message_unobserved w ws raw b :
  observed' w (EMessage ws raw b) = None →
  world_after (on_message JSON_parse b w ws raw) = w
  ∧ world_calls (on_message JSON_parse b w ws raw) = [].
Proof.
  simpl. unfold on_message, handleMessage.
  destruct (heap w !! ws) as [s|]; [| done].
  destruct (readyState s); try done.
  destruct (decode JSON_parse raw) as [v|]; [| by destruct w].
  destruct (envelopeSchema_safeParse v); [discriminate | by destruct w].
Qed.

Lemma step_unobserved w e :
  observed' w e = None →
  world_calls (step' w e) = []
  ∧ lastSeq (manager (world_after (step' w e))) = lastSeq (manager w).
Proof.
  intros Ho. destruct e; try (simpl; done).
  - simpl. unfold connect. by destruct (WebSocket_accepts url).
  - simpl. destruct (heap w !! ws) as [s|]; [| done]. by destruct (readyState s).
  - apply on_message_unobserved in Ho as [Ha Hc]. simpl. by rewrite Ha, Hc.
Qed.

(** A step that handles no validated envelope leaves the observer alone,
    unless it is a call that sets it. *)
Lemma step_unobserved_manager w e :
  observed' w e = None →
  (∀ g, e ≠ EOnGapDetected g) →
  gapHandler (manager (world_after (step' w e))) = gapHandler (manager w).
Proof.
  intros Ho Hne. destruct e; try (simpl; done).
  - by destruct (Hne g).
  - simpl. unfold connect. by destruct (WebSocket_accepts url).
  - simpl. destruct (heap w !! ws) as [s|]; [| done]. by destruct (readyState s).
  - apply on_message_unobserved in Ho as [Ha _]. simpl. by rewrite Ha.
Qed.

(** Only [onGapDetected] changes the gap observer. *)
Lemma step_gapHandler w e :
  (∀ g, e ≠ EOnGapDetected g) →
  gapHandler (manager (world_after (step' w e))) = gapHandler (manager w).
Proof.
  intros Hne. destruct (observed' w e) as [[c env]|] eqn:Ho.
  - rewrite (step_observed _ _ _ _ Ho). cbn. apply track_gapHandler.
  - by apply step_unobserved_manager.
Qed.

(** Every call a step makes is made for the envelope it observes. *)
Lemma step_calls w e call :
  call ∈ world_calls (step' w e) →
  ∃ c env, observed' w e = Some (c, env)
           ∧ call ∈ calls (track_and_dispatch (behaviour_of e) (manager w) c env).
Proof.
  destruct (observed' w e) as [[c env]|] eqn:Ho.
  - rewrite (step_observed _ _ _ _ Ho). cbn. eauto.
  - destruct (step_unobserved _ _ Ho) as [-> _]. by intros ?%elem_of_nil.
Qed.

(** Every subscriber a step invokes is registered, when the step starts,
    for the channel that dispatches. *)
Lemma step_calls_registered w e c h env :
  HandlerCall c h env ∈ world_calls (step' w e) → h ∈ handlers_of (manager w) c.
Proof.
  intros (c' & env' & _ & Hin)%step_calls.
  by apply track_calls_channel in Hin as (-> & -> & Hh).
Qed.

(** Only [subscribe(c, h)] can make [h] a subscriber of [c]. *)
Lemma step_keeps_unsubscribed w e c h :
  e ≠ ESubscribe c h → h ∉ handlers_of (manager w) c →
  h ∉ handlers_of (manager (world_after (step' w e))) c.
Proof.
  intros Hne Hh. destruct e; simpl; try done.
  - destruct (decide (channel = c)) as [-> | Hc].
    + rewrite handlers_of_set_eq. intros [Hin | Hin%list_elem_of_singleton]%elem_of_app;
        [done | by subst].
    + by rewrite handlers_of_set_ne.
  - destruct (decide (channel = c)) as [-> | Hc].
    + unfold disposer. rewrite handlers_of_set_eq.
      by intros [_ Hin]%list_elem_of_filter.
    + unfold disposer. by rewrite handlers_of_set_ne.
  - unfold connect. by destruct (WebSocket_accepts url).
  - destruct (heap w !! ws) as [s|]; [| done]. by destruct (readyState s).
  - destruct (observed' w (EMessage ws raw b)) as [[c' env']|] eqn:Ho.
    + change (on_message JSON_parse b w ws raw) with (step' w (EMessage ws raw b)).
      rewrite (step_observed _ _ _ _ Ho). cbn. by rewrite handlers_of_track.
    + apply on_message_unobserved in Ho as [Ha _]. by rewrite Ha.
Qed.

Lemma run_cons w e es :
  run' w (e :: es) =
    ((run' (world_after (step' w e)) es).1,
     world_calls (step' w e) ++ (run' (world_after (step' w e)) es).2).
Proof. reflexivity. Qed.

Lemma run_no_gap_on c es :
  ∀ w, consecutive (lastSeq (manager w) !! c) (sequences_on c (observations' w es)) →
       Forall (λ x, x <= 2 ^ 53) (sequences_on c (observations' w es)) →
       Forall (λ call, ¬ is_gap_on c call) (run' w es).2.
Proof.
  induction es as [| e es IH]; intros w Hc Hb; [by constructor |].
  rewrite run_cons. cbn [snd]. cbn [observations] in Hc, Hb. apply Forall_app.
  destruct (observed' w e) as [[c' env]|] eqn:Ho.
  - pose proof (observed_nonneg _ _ _ _ Ho) as Hn.
    rewrite (step_observed _ _ _ _ Ho) in Hc, Hb |- *.
    cbn [world_after world_calls manager option_list] in *.
    change (option_list (Some (c', env)) ++ ?l) with ((c', env) :: l) in Hc, Hb.
    rewrite sequences_on_cons in Hc, Hb.
    destruct (String.eqb_spec c' c) as [-> | Hne].
    + cbn [app consecutive] in Hc, Hb. destruct Hc as [Hfirst Hrest].
      apply Forall_cons in Hb as [Hx Hb].
      assert (He : sequence env = expected_after (lastSeq (manager w) !! c) (sequence env)).
      { destruct (lastSeq (manager w) !! c) as [p|].
        - rewrite expected_after_stored, js_add_exact; lia.
        - rewrite expected_after_first; lia. }
      rewrite (track_expected _ _ _ _ He) in Hrest, Hb |- *. split.
      * rewrite store_calls. apply Forall_forall.
        intros call (h & -> & _)%list_elem_of_fmap. simpl. tauto.
      * apply IH; [| done]. cbn [manager]. by rewrite store_lastSeq.
    + cbn [app] in Hc, Hb. split.
      * apply Forall_forall. intros call Hin%track_calls_channel.
        destruct call; simpl; [| tauto]. destruct Hin as [-> _]. congruence.
      * apply IH; [| done]. cbn [manager]. by rewrite track_lastSeq_other.
  - destruct (step_unobserved _ _ Ho) as [-> Hl]. split; [constructor |].
    apply IH; [| done]. rewrite Hl. apply Hc.
Qed.

Lemma gap_calls_app cs1 cs2 : gap_calls (cs1 ++ cs2) = gap_calls cs1 ++ gap_calls cs2.
Proof. apply List.filter_app. Qed.

Lemma run_no_observer es :
  ∀ w, gapHandler (manager w) = None → Forall (λ e, ∀ g, e ≠ EOnGapDetected g) es →
       gap_calls (run' w es).2 = [].
Proof.
  induction es as [| e es IH]; intros w Hg Hes; [done |].
  apply Forall_cons in Hes as [He Hes].
  rewrite run_cons. cbn [snd]. rewrite gap_calls_app.
  rewrite IH; [| by rewrite step_gapHandler | done]. rewrite app_nil_r.
  destruct (observed' w e) as [[c env]|] eqn:Ho.
  - rewrite (step_observed _ _ _ _ Ho).
    cbn [world_calls]. cbn zeta. by rewrite track_gap_calls, Hg.
  - by destruct (step_unobserved _ _ Ho) as [-> _].
Qed.

Lemma run_unsubscribed c h es :
  ∀ w, h ∉ handlers_of (manager w) c → Forall (λ e, e ≠ ESubscribe c h) es →
       Forall (λ call, ¬ is_call_of c h call) (run' w es).2.
Proof.
  induction es as [| e es IH]; intros w Hh Hes; [by constructor |].
  apply Forall_cons in Hes as [He Hes].
  rewrite run_cons. simpl. apply Forall_app. split.
  - apply Forall_forall. intros [g c' x y | c' h' env] Hin; simpl; [tauto |].
    intros [-> ->]. by apply step_calls_registered in Hin.
  - apply IH; [by apply step_keeps_unsubscribed | done].
Qed.

(** Any gap signal delivered during a step is about the envelope observed in
    that step and the sequence stored when the step starts. *)
Lemma step_gap_calls w e :
  gap_calls (world_calls (step' w e)) = []
  ∨ ∃ c env g, observed' w e = Some (c, env)
      ∧ gapHandler (manager w) = Some g
      ∧ sequence env ≠ expected_after (lastSeq (manager w) !! c) (sequence env)
      ∧ gap_calls (world_calls (step' w e))
        = [GapCall g c (expected_after (lastSeq (manager w) !! c) (sequence env))
                   (sequence env)].
Proof.
  destruct (observed' w e) as [[c env]|] eqn:Ho.
  - rewrite (step_observed _ _ _ _ Ho). cbn [world_calls]. cbn zeta.
    rewrite track_gap_calls. destruct (gapHandler (manager w)) as [g|] eqn:Hg; [| by left].
    cbn zeta. case_bool_decide; [right | by left]. by exists c, env, g.
  - left. by destruct (step_unobserved _ _ Ho) as [-> _].
Qed.

End Runs.

(** ** Subscriptions *)

Lemma subscribe_disposer m c h : (subscribe m c h).2 = disposer c h.
Proof. reflexivity. Qed.

Lemma subscribe_handlers_of m c h :
  handlers_of (subscribe m c h).1 c = handlers_of m c ++ [h].
Proof. unfold subscribe. simpl. apply handlers_of_set_eq. Qed.

Lemma disposer_handlers_of m c h :
  handlers_of (disposer c h m) c = filter (λ x, x ≠ h) (handlers_of m c).
Proof. unfold disposer. apply handlers_of_set_eq. Qed.

Lemma filter_ne_absent (h : Handler) (l : list Handler) :
  h ∉ l → filter (λ x, x ≠ h) l = l.
Proof.
  induction l as [| x l IH]; [done |]. intros Hn.
  apply not_elem_of_cons in Hn as [Hx Hl].
  rewrite filter_cons_True by done. by rewrite IH.
Qed.

Lemma filter_ne_idemp (h : Handler) (l : list Handler) :
  filter (λ x, x ≠ h) (filter (λ x, x ≠ h) l) = filter (λ x, x ≠ h) l.
Proof. apply filter_ne_absent. by intros [? _]%list_elem_of_filter. Qed.

Lemma disposer_twice m c h : disposer c h (disposer c h m) = disposer c h m.
Proof.
  unfold disposer at 1. rewrite disposer_handlers_of, filter_ne_idemp.
  unfold disposer, set_handlers. simpl. by rewrite insert_insert_eq.
Qed.

Lemma blocked_disposer b m c c' h env :
  blocked b (disposer c' h m) c env = blocked b m c env.
Proof. reflexivity. Qed.

(** The number of calls a subscriber receives from a list of handlers. *)
Lemma invocations_count (c : string) (env : Envelope) (h : Handler) (l : list Handler) :
  length (filter (λ x : string * Handler * Envelope, x.1.2 = h) (map (λ h', (c, h', env)) l))
  = length (filter (λ x, x = h) l).
Proof.
  induction l as [| x l IH]; [done |]. simpl.
  destruct (decide (x = h)) as [-> | Hne].
  - rewrite !filter_cons_True by done. simpl. by rewrite IH.
  - by rewrite !filter_cons_False by done.
Qed.

(** C7, amended: the disposer returned by a subscription removes from the
    channel it closed over every registration of the handler instance it
    closed over, those made by other subscriptions of that same handler
    included, and nothing else: every other entry of the channel's list
    stays, in order, and still receives the envelopes; the lists of other
    channels, the connection map, the sequences and the gap observer are
    untouched.  Invoked when its handler is no longer registered, it leaves
    the handler lists as they are, and a second invocation leaves the whole
    manager as the first one left it. *)
Theorem disposer_removes_its_handler (m : Manager) (c : string) (h : Handler) :
  let d := (subscribe m c h).2 in
  (∀ m', handlers (d m') !! c
         = Some (filter (λ x, x ≠ h) (default [] (handlers m' !! c))))
  ∧ (∀ m' l1 l2, handlers m' !! c = Some (l1 ++ h :: l2) → h ∉ l1 → h ∉ l2 →
       handlers (d m') !! c = Some (l1 ++ l2))
  ∧ (∀ m' l h', handlers m' !! c = Some l → h' ≠ h →
       ∃ l', handlers (d m') !! c = Some l'
             ∧ (h ∉ l')
             ∧ l' `sublist_of` l
             ∧ length (filter (λ x, x = h') l') = length (filter (λ x, x = h') l))
  ∧ (∀ m' c', c' ≠ c → handlers (d m') !! c' = handlers m' !! c')
  ∧ (∀ m', sockets (d m') = sockets m' ∧ lastSeq (d m') = lastSeq m'
           ∧ gapHandler (d m') = gapHandler m')
  ∧ handlers (d (subscribe m c h).1) !! c
    = Some (filter (λ x, x ≠ h) (default [] (handlers m !! c)))
  ∧ (∀ m' l, handlers m' !! c = Some l → h ∉ l → handlers (d m') = handlers m')
  ∧ (∀ m', d (d m') = d m')
  ∧ (∀ b m' env,
       invoked (calls (track_and_dispatch b (d m') c env))
       = if blocked b m' c env then []
         else map (λ h', (c, h', env))
                  (reached b env (filter (λ x, x ≠ h) (default [] (handlers m' !! c))))).
Proof.
  intros d. subst d. rewrite subscribe_disposer.
  assert (Hd : ∀ m', handlers (disposer c h m') !! c
                     = Some (filter (λ x, x ≠ h) (default [] (handlers m' !! c)))).
  { intros m'. unfold disposer. simpl. by rewrite lookup_insert_eq. }
  split; [exact Hd |].
  split; [| split; [| split; [| split; [| split; [| split; [| split]]]]]].
  - intros m' l1 l2 Hl H1 H2. rewrite Hd, Hl. simpl.
    rewrite filter_app, filter_cons_False by (intros ?; done).
    by rewrite !filter_ne_absent.
  - intros m' l h' Hl Hne. rewrite Hd, Hl. simpl. eexists. split; [done |].
    split; [by intros [? _]%list_elem_of_filter |]. split; [apply sublist_filter |].
    f_equal. clear Hl. induction l as [| x l IH]; [done |].
    destruct (decide (x = h)) as [-> | Hx].
    + rewrite filter_cons_False by (intros ?; done).
      by rewrite (filter_cons_False (λ x, x = h')) by done.
    + rewrite (filter_cons_True (λ x, x ≠ h)) by done.
      destruct (decide (x = h')) as [-> | Hx'].
      * rewrite !(filter_cons_True (λ x, x = h')) by done. by rewrite IH.
      * by rewrite !(filter_cons_False (λ x, x = h')) by done.
  - intros m' c' Hc. unfold disposer. simpl. by rewrite lookup_insert_ne.
  - done.
  - rewrite Hd. unfold subscribe. simpl. rewrite lookup_insert_eq. simpl.
    rewrite filter_app, filter_cons_False by (intros ?; done).
    by rewrite filter_nil, app_nil_r.
  - intros m' l Hl Hn. unfold disposer. simpl. unfold handlers_of. rewrite Hl. simpl.
    rewrite filter_ne_absent by done. by apply insert_id.
  - intros m'. apply disposer_twice.
  - intros b m' env. rewrite track_invoked, blocked_disposer.
    destruct (blocked b m' c env); [done |]. by rewrite disposer_handlers_of.
Qed.

Section Pipeline.

Variable JSON_parse : string → option JSValue.
Variable WebSocket_accepts : string → bool.

Local Abbreviation handle := (handleMessage JSON_parse).
Local Abbreviation deliver := (on_message JSON_parse).
Local Abbreviation step' := (step JSON_parse WebSocket_accepts).
Local Abbreviation run' := (run JSON_parse WebSocket_accepts).

(** C3, amended: on a channel with no sequence recorded, when the validated
    envelopes observed on it during a run carry k, k+1, k+2, ... up to 2^53
    at most (in that order, whatever else happens in between on this or
    other channels and however the callbacks behave), no gap signal for that
    channel is ever delivered; and the first validated message of a channel
    reports no gap whatever its sequence is, up to 2^53. *)
Theorem consecutive_sequences_raise_no_gap
    (w : World) (es : list Event) (c : string) (k : Z) (n : nat) :
  lastSeq (manager w) !! c = None →
  sequences_on c (observations JSON_parse WebSocket_accepts w es) = seqZ k (Z.of_nat n) →
  k + Z.of_nat n <= 2 ^ 53 + 1 →
  Forall (λ call, ¬ is_gap_on c call) (run' w es).2
  ∧ ∀ b raw v env, decode JSON_parse raw = Some v → envelopeSchema_safeParse v = Some env →
      sequence env <= 2 ^ 53 →
      gap_calls (calls (handle b (manager w) c raw)) = []
      ∧ lastSeq (after (handle b (manager w) c raw)) !! c = Some (sequence env).
Proof.
  intros Hl Hs Hk. split.
  - apply run_no_gap_on; rewrite ?Hl, Hs; [by apply consecutive_seqZ | by apply seqZ_bounded].
  - intros b raw v env Hd Hv Hx. rewrite (handleMessage_validated _ _ _ _ _ _ _ Hd Hv).
    assert (Hn : 0 <= sequence env).
    { by apply safeParse_Some in Hv as (props & _ & _ & _ & (q & _ & _ & Hn) & _). }
    rewrite track_expected by (rewrite Hl, expected_after_first; lia).
    split; [| apply store_lastSeq].
    rewrite store_calls. simpl. induction (reached _ _ _); [done | by simpl].
Qed.

(** C6, amended: handling a validated envelope on a channel invokes, within
    the call, the handlers registered for that channel when the dispatch
    starts, once per registration (a handler subscribed twice is invoked
    twice), each with that envelope, in the order in which they were
    subscribed ([subscribe] appends), up to and including the first one that
    throws: the handlers registered after it are not invoked, and none is
    when the gap observer threw.  When no callback throws, every registered
    handler is invoked as often as it is registered.  Once a disposer of the
    handler [h] on the channel has been invoked, no later dispatch on the
    channel invokes [h], as long as [h] is not subscribed to it again. *)
Theorem dispatch_in_registration_order
    (b : Behaviour) (m : Manager) (c : string) (raw v : JSValue) (env : Envelope) :
  decode JSON_parse raw = Some v → envelopeSchema_safeParse v = Some env →
  let o := handle b m c raw in
  let hs := default [] (handlers m !! c) in
  invoked (calls o) = (if blocked b m c env then [] else map (λ h, (c, h, env)) (reached b env hs))
  ∧ reached b env hs `prefix_of` hs
  ∧ (blocked b m c env = false → first_thrower b env hs = None →
       invoked (calls o) = map (λ h, (c, h, env)) hs
       ∧ thrown o = None
       ∧ ∀ h, length (filter (λ x, x.1.2 = h) (invoked (calls o)))
              = length (filter (λ x, x = h) hs))
  ∧ (blocked b m c env = false → ∀ h, first_thrower b env hs = Some h →
       thrown o = Some (SubscriberThrew h)
       ∧ ∃ l1 l2, hs = l1 ++ h :: l2
           ∧ invoked (calls o) = map (λ h', (c, h', env)) (l1 ++ [h])
           ∧ ∀ h', h' ∈ l1 → subscriber_throws b h' env = false)
  ∧ (∀ h, handlers (subscribe m c h).1 !! c = Some (hs ++ [h]))
  ∧ (∀ h m' hp es, Forall (λ e, e ≠ ESubscribe c h) es →
       Forall (λ call, ¬ is_call_of c h call)
              (run' (mkWorld ((subscribe m c h).2 m') hp) es).2).
Proof.
  intros Hd Hv o hs. subst o hs. rewrite (handleMessage_validated _ _ _ _ _ _ _ Hd Hv).
  fold (handlers_of m c).
  assert (Hgone : ∀ h m', h ∉ handlers_of (disposer c h m') c).
  { intros h m'. rewrite disposer_handlers_of. by intros [? _]%list_elem_of_filter. }
  split; [apply track_invoked |]. split; [apply reached_prefix |].
  split; [| split; [| split]].
  - intros Hb Hnone. destruct (track_accepted _ _ _ _ Hb) as (_ & Hi & Ht).
    rewrite Hi, Ht, Hnone, reached_all by done. split; [done |]. split; [done |].
    intros h. apply invocations_count.
  - intros Hb h Hsome. destruct (track_accepted _ _ _ _ Hb) as (_ & Hi & Ht).
    rewrite Hi, Ht, Hsome. split; [done |].
    destruct (reached_until _ _ _ _ Hsome) as (l1 & l2 & Hl & Hr & _ & Hbefore).
    exists l1, l2. by rewrite Hr.
  - intros h. unfold subscribe. simpl. by rewrite lookup_insert_eq.
  - intros h m' hp es Hes. apply run_unsubscribed; [apply Hgone | done].
Qed.

(** C9, amended: a message delivered on the connection opened for the
    channel [ch] is tracked and routed under [ch], whatever channel its
    envelope names.  The channel field of the envelope is checked for
    membership in the fixed set (a value outside it makes the message a
    rejection) and is used for nothing else: the sequence is compared with the
    last-accepted sequence of [ch], every call made is made for [ch], the
    stored sequence of every other channel (the one the envelope names
    included) is untouched, and, unless the gap observer throws, the sequence
    is stored as the last-accepted sequence of [ch] and the envelope goes to
    the subscribers of [ch], up to the first one that throws.  An envelope
    that differs in its channel field only leaves the same manager and raises
    the same gap signals.  The connection is the one [connect] recorded for
    [ch], when the constructor of the socket accepted the address. *)
Theorem routing_follows_the_connection
    (b : Behaviour) (w : World) (ws : SocketId) (s : Socket) (raw v : JSValue) :
  heap w !! ws = Some s → readyState s = OPEN →
  decode JSON_parse raw = Some v →
  let c := stream_name (ws_channel s) in
  let o := deliver b w ws raw in
  ((∀ props ch, v = JObject props → get_prop props "stream" ≠ JString (stream_name ch)) →
     o = quiet w)
  ∧ (∀ env, envelopeSchema_safeParse v = Some env →
       (∃ props, v = JObject props
                 ∧ get_prop props "stream" = JString (stream_name (stream env)))
       ∧ o = (let t := track_and_dispatch b (manager w) c env in
              mkWorldOutcome (mkWorld (after t) (heap w)) (calls t) (thrown t))
       ∧ (∀ call, call ∈ world_calls o →
            match call with
            | GapCall _ c' _ x => c' = c ∧ x = sequence env
            | HandlerCall c' h env' => c' = c ∧ env' = env ∧ h ∈ handlers_of (manager w) c
            end)
       ∧ gap_calls (world_calls o)
         = match gapHandler (manager w) with
           | Some g =>
               let expected := expected_after (lastSeq (manager w) !! c) (sequence env) in
               if bool_decide (sequence env ≠ expected)
               then [GapCall g c expected (sequence env)] else []
           | None => []
           end
       ∧ (∀ c', c' ≠ c →
            lastSeq (manager (world_after o)) !! c' = lastSeq (manager w) !! c')
       ∧ lastSeq (manager (world_after o)) !! c
         = (if blocked b (manager w) c env then lastSeq (manager w) !! c
            else Some (sequence env))
       ∧ invoked (world_calls o)
         = (if blocked b (manager w) c env then []
            else map (λ h, (c, h, env)) (reached b env (default [] (handlers (manager w) !! c))))
       ∧ (∀ ch', let env' := mkEnvelope (kind env) ch' (sequence env) (payload env) in
            after (track_and_dispatch b (manager w) c env') = manager (world_after o)
            ∧ gap_calls (calls (track_and_dispatch b (manager w) c env'))
              = gap_calls (world_calls o)))
  ∧ (∀ w0 ch url,
       (WebSocket_accepts url = true →
          heap (world_after (connect WebSocket_accepts w0 ch url)) !! length (heap w0)
          = Some (mkSocket url ch CONNECTING)
          ∧ sockets (manager (world_after (connect WebSocket_accepts w0 ch url)))
              !! stream_name ch
            = Some (length (heap w0)))
       ∧ (WebSocket_accepts url = false →
            connect WebSocket_accepts w0 ch url = mkWorldOutcome w0 [] (Some DOMException))).
Proof.
  intros Hs Ho Hd c o. subst o. rewrite (on_message_open _ _ _ _ _ _ Hs Ho).
  fold c. cbn zeta. split; [| split].
  - intros Hno. rewrite (handleMessage_rejected _ _ _ _ _ v Hd); [by destruct w |].
    destruct (envelopeSchema_safeParse v) as [env|] eqn:Hv; [| done].
    apply safeParse_Some in Hv as (props & -> & _ & Hst & _).
    by destruct (Hno props (stream env) eq_refl).
  - intros env Hv. rewrite (handleMessage_validated _ _ _ _ _ _ _ Hd Hv).
    cbn [world_after world_calls manager].
    split.
    { apply safeParse_Some in Hv as (props & -> & _ & Hst & _). by exists props. }
    split; [done |]. split; [intros call; apply track_calls_channel |].
    split; [apply track_gap_calls |].
    split; [intros c' Hc; by apply track_lastSeq_other |].
    split.
    { rewrite track_after. destruct (blocked b (manager w) c env); [done |].
      simpl. apply lookup_insert_eq. }
    split; [apply track_invoked |].
    intros ch'. split; [| by rewrite !track_gap_calls].
    by rewrite !track_after.
  - intros w0 ch url. unfold connect. split; intros ->; [| done]. simpl. split.
    + rewrite lookup_app_r by done. by rewrite Nat.sub_diag.
    + apply lookup_insert_eq.
Qed.

(** C10, amended: with no gap observer registered, a validated envelope
    whose sequence does not match the expectation produces no signal: the
    calls made are exactly the dispatch to the channel's subscribers (up to
    the first one that throws), and the received sequence is stored.  The
    same call with an observer registered leaves the same manager, invokes
    the same subscribers and completes the same way whenever the observer is
    not called or returns; when the observer throws, the sequence is not
    stored and no subscriber is invoked.  No run without a registration
    delivers a gap signal, registering an observer delivers nothing, and
    every signal delivered afterwards is about the message being handled at
    that moment. *)
Theorem unobserved_gap_is_silent
    (b : Behaviour) (m : Manager) (c : string) (g : GapHandler)
    (raw v : JSValue) (env : Envelope) :
  gapHandler m = None →
  decode JSON_parse raw = Some v → envelopeSchema_safeParse v = Some env →
  let o := handle b m c raw in
  let o' := handle b (onGapDetected m g) c raw in
  calls o = map (λ h, HandlerCall c h env) (reached b env (default [] (handlers m !! c)))
  ∧ lastSeq (after o) !! c = Some (sequence env)
  ∧ thrown o = SubscriberThrew <$> first_thrower b env (default [] (handlers m !! c))
  ∧ (blocked b (onGapDetected m g) c env = false →
       after o' = onGapDetected (after o) g
       ∧ invoked (calls o') = invoked (calls o)
       ∧ thrown o' = thrown o)
  ∧ (blocked b (onGapDetected m g) c env = true →
       after o' = onGapDetected m g
       ∧ invoked (calls o') = []
       ∧ thrown o' = Some (ObserverThrew g))
  ∧ (∀ hp es, Forall (λ e, ∀ g', e ≠ EOnGapDetected g') es →
       gap_calls (run' (mkWorld m hp) es).2 = [])
  ∧ (∀ w, step' w (EOnGapDetected g) = quiet (mkWorld (onGapDetected (manager w) g) (heap w)))
  ∧ (∀ w e, gap_calls (world_calls (step' w e)) = []
       ∨ ∃ c' env' g', observed JSON_parse w e = Some (c', env')
           ∧ gapHandler (manager w) = Some g'
           ∧ sequence env' ≠ expected_after (lastSeq (manager w) !! c') (sequence env')
           ∧ gap_calls (world_calls (step' w e))
             = [GapCall g' c' (expected_after (lastSeq (manager w) !! c') (sequence env'))
                        (sequence env')]).
Proof.
  intros Hg Hd Hv o o'. subst o o'.
  rewrite !(handleMessage_validated _ _ _ _ _ _ _ Hd Hv).
  fold (handlers_of m c).
  rewrite (track_no_observer b m c env Hg).
  split; [apply store_calls |]. split; [apply store_lastSeq |].
  split; [apply store_thrown |].
  split; [| split; [| split; [| split; [done | apply step_gap_calls]]]].
  - intros Hb. destruct (track_accepted _ _ _ _ Hb) as (Ha & Hi & Ht).
    rewrite Ha, Hi, Ht, store_calls, store_thrown. split; [done |]. split; [| done].
    simpl. by rewrite invoked_handler_calls.
  - intros Hb. destruct (track_blocked _ _ _ _ Hb) as (Ha & Hi & g' & Hg' & Ht).
    rewrite Ha, Hi, Ht. simpl in Hg'. by injection Hg' as <-.
  - intros hp es Hes. by apply run_no_observer.
Qed.

End Pipeline.

(** ** Closing *)

Lemma ws_close_closed s :
  readyState (ws_close s) = CLOSING ∨ readyState (ws_close s) = CLOSED.
Proof. unfold ws_close. destruct (readyState s) eqn:E; simpl; auto. Qed.

Lemma close_each_cons e ss hp :
  close_each (e :: ss) hp = alter ws_close e.2 (close_each ss hp).
Proof. reflexivity. Qed.

Lemma close_each_length ss hp : length (close_each ss hp) = length hp.
Proof.
  induction ss as [| e ss IH]; [done |]. by rewrite close_each_cons, length_alter.
Qed.

Lemma close_each_closed ss hp (ws : SocketId) s' :
  ws ∈ ss.*2 → close_each ss hp !! ws = Some s' →
  readyState s' = CLOSING ∨ readyState s' = CLOSED.
Proof.
  induction ss as [| e ss IH] in s' |- *; [by intros ?%elem_of_nil |].
  rewrite fmap_cons, close_each_cons. intros Hin Hl.
  destruct (decide (e.2 = ws)) as [Heq | Hne].
  - rewrite Heq, list_lookup_alter_eq in Hl.
    apply fmap_Some in Hl as (s0 & _ & ->). apply ws_close_closed.
  - rewrite list_lookup_alter_ne in Hl by done.
    apply elem_of_cons in Hin as [Hin | Hin]; [congruence | by apply IH].
Qed.

Lemma close_each_other ss hp (ws : SocketId) :
  ws ∉ ss.*2 → close_each ss hp !! ws = hp !! ws.
Proof.
  induction ss as [| e ss IH]; [done |].
  rewrite fmap_cons, close_each_cons. intros [Hne Hin]%not_elem_of_cons.
  rewrite list_lookup_alter_ne by done. by apply IH.
Qed.

Section Closing.

Variable JSON_parse : string → option JSValue.

(** C8, amended: [closeAll] closes every connection held in the connection
    map, so that no message arriving on one of them is processed any more,
    and empties the map; it creates and removes no socket and leaves the
    subscriptions, the last-accepted sequences and the gap observer as they
    were.  A message observed later on a channel is therefore compared with
    the sequence stored before [closeAll] and dispatched to the subscribers
    registered before it as well. *)
Theorem closeAll_closes_and_keeps_the_rest (w : World) :
  sockets (manager (closeAll w)) = ∅
  ∧ (∀ c ws s', sockets (manager w) !! c = Some ws → heap (closeAll w) !! ws = Some s' →
       readyState s' = CLOSING ∨ readyState s' = CLOSED)
  ∧ (∀ b c ws raw, sockets (manager w) !! c = Some ws →
       on_message JSON_parse b (closeAll w) ws raw = quiet (closeAll w))
  ∧ length (heap (closeAll w)) = length (heap w)
  ∧ handlers (manager (closeAll w)) = handlers (manager w)
  ∧ lastSeq (manager (closeAll w)) = lastSeq (manager w)
  ∧ gapHandler (manager (closeAll w)) = gapHandler (manager w)
  ∧ (∀ b c env g p, gapHandler (manager w) = Some g → lastSeq (manager w) !! c = Some p →
       sequence env ≠ js_add p 1 →
       calls (track_and_dispatch b (manager (closeAll w)) c env)
       = GapCall g c (js_add p 1) (sequence env)
         :: (if observer_throws b g c (js_add p 1) (sequence env) then []
             else map (λ h, HandlerCall c h env)
                      (reached b env (default [] (handlers (manager w) !! c))))).
Proof.
  assert (Hclosed : ∀ c ws s', sockets (manager w) !! c = Some ws →
            heap (closeAll w) !! ws = Some s' →
            readyState s' = CLOSING ∨ readyState s' = CLOSED).
  { intros c ws s' Hc Hl. simpl in Hl. eapply close_each_closed; [| exact Hl].
    apply list_elem_of_fmap. exists (c, ws). split; [done |].
    by apply elem_of_map_to_list. }
  split; [done |]. split; [exact Hclosed |]. split; [| split; [| split; [| split; [| split]]]];
    try done.
  - intros b c ws raw Hc. apply on_message_not_open. intros s' Hl.
    destruct (Hclosed c ws s' Hc Hl) as [-> | ->]; done.
  - simpl. apply close_each_length.
  - intros b c env g p Hg Hp Hne.
    assert (He : expected_after (lastSeq (manager (closeAll w)) !! c) (sequence env)
                 = js_add p 1) by (simpl; by rewrite Hp).
    destruct (observer_throws b g c (js_add p 1) (sequence env)) eqn:Ht.
    + rewrite (track_observer_threw b _ c env g); rewrite ?He; done.
    + rewrite (track_signalled b _ c env g); rewrite ?He; try done.
      by rewrite store_calls.
Qed.

End Closing.

(** ** Worked examples and instances *)

(** The test [detects sequence gaps] of [tests/wsManager.test.ts]. *)
Example detects_sequence_gaps :
  let manager := onGapDetected new_WebSocketManager spy in
  let o1 := handleMessage Wire.JSON_parse returning manager "market" (JString tick1_text) in
  let o3 := handleMessage Wire.JSON_parse returning (after o1) "market" (JString tick3_text) in
  calls o1 ++ calls o3 = [GapCall spy "market" 2 3].
Proof. vm_compute. reflexivity. Qed.

(** Scenario of the specification: a tick with sequence 1, then an envelope
    without its channel field: the second message invokes nobody and the
    stored sequence is still 1. *)
Example missing_channel_is_dropped :
  let o1 := handleMessage Wire.JSON_parse returning watched "market" (JString tick1_text) in
  let o2 := handleMessage Wire.JSON_parse returning (after o1) "market"
              (JString no_channel_text) in
  calls o2 = [] ∧ lastSeq (after o2) !! "market" = Some 1 ∧ thrown o2 = None.
Proof. vm_compute. repeat split. Qed.

(** Scenario of the specification: two handlers subscribed to the system
    channel, the first one unsubscribed, one envelope delivered: only the
    second handler is invoked. *)
Example only_second_handler_invoked :
  let s1 := subscribe new_WebSocketManager "system" first_handler in
  let s2 := subscribe s1.1 "system" second_handler in
  let m := s1.2 s2.1 in
  calls (handleMessage Wire.JSON_parse returning m "system" (JString alert_text))
  = [HandlerCall "system" second_handler alert_envelope].
Proof. vm_compute. reflexivity. Qed.

(** [connect] on a channel that already has a connection puts the new
    socket in the map and leaves the earlier socket as it is: [closeAll]
    then closes the socket of the map. *)
Example closeAll_closes_sockets_of_the_map :
  let w := (wire_run new_World
              [EConnect market market_url; EOpened 0%nat;
               EConnect market market_url; EOpened 1%nat; ECloseAll]).1 in
  readyState <$> heap w = [OPEN; CLOSING] ∧ sockets (manager w) = ∅.
Proof. vm_compute. split; reflexivity. Qed.

(** An address that the constructor of the socket refuses, here for its
    fragment: [connect] throws and records nothing. *)
Example connect_refuses_a_fragment :
  connect Wire.WebSocket_accepts new_World market "ws://localhost:8000/ws/market#live"
  = mkWorldOutcome new_World [] (Some DOMException).
Proof. vm_compute. reflexivity. Qed.

(** The numbers of the decoder are doubles. *)
Example decoded_numbers_are_doubles :
  Wire.JSON_parse "9007199254740993" = Some (JNumber (Finite (inject_Z (2 ^ 53))))
  ∧ Wire.JSON_parse "1e400" = Some (JNumber (Infinity false))
  ∧ Wire.JSON_parse "0.5" = Some (JNumber (Finite (Qmake 1 2))).
Proof. vm_compute. repeat split. Qed.

(** C2, as stated, fails.  Two consecutive ticks that both carry the
    sequence 2^53 (so that s' <> s + 1) raise no gap signal, because 2^53 + 1
    is 2^53 in the arithmetic of doubles.  And when the observer throws on the
    signal for the sequences 1 then 3, the stored sequence stays 1 and no
    subscriber receives the envelope. *)
Lemma gap_signal_lost_or_blocking :
  let handle := handleMessage Wire.JSON_parse in
  let m1 := after (handle returning watched "market" (JString tick_2_53_text)) in
  let o := handle returning m1 "market" (JString tick_2_53_text) in
  let m1' := after (handle returning watched "market" (JString tick1_text)) in
  let o' := handle observer_fails m1' "market" (JString tick3_text) in
  Wire.JSON_parse tick_2_53_text = Some (tick (2 ^ 53))
  ∧ envelopeSchema_safeParse (tick (2 ^ 53)) = Some (tick_envelope (2 ^ 53))
  ∧ lastSeq m1 !! "market" = Some (2 ^ 53)
  ∧ 2 ^ 53 ≠ 2 ^ 53 + 1
  ∧ calls o = [HandlerCall "market" first_handler (tick_envelope (2 ^ 53));
               HandlerCall "market" second_handler (tick_envelope (2 ^ 53))]
  ∧ gap_calls (calls o) = []
  ∧ lastSeq m1' !! "market" = Some 1
  ∧ calls o' = [GapCall spy "market" 2 3]
  ∧ lastSeq (after o') !! "market" = Some 1
  ∧ invoked (calls o') = []
  ∧ thrown o' = Some (ObserverThrew spy).
Proof. vm_compute. repeat split; discriminate. Qed.

(** C3, as stated, fails: the first message of a channel reports a gap when
    its sequence is 2^53 + 2, because (2^53 + 2 - 1) + 1 is 2^53 in the
    arithmetic of doubles. *)
Lemma first_message_above_2_53_reports_a_gap :
  let es := [EMessage 0%nat (JString tick_2_53_2_text) returning] in
  lastSeq (manager portfolio_open) !! "portfolio" = None
  ∧ sequences_on "portfolio"
      (observations Wire.JSON_parse Wire.WebSocket_accepts portfolio_open es)
    = seqZ (2 ^ 53 + 2) 1
  ∧ (wire_run portfolio_open es).2
    = [GapCall spy "portfolio" (2 ^ 53) (2 ^ 53 + 2);
       HandlerCall "portfolio" first_handler (tick_envelope (2 ^ 53 + 2))]
  ∧ ¬ Forall (λ call, ¬ is_gap_on "portfolio" call) (wire_run portfolio_open es).2.
Proof.
  assert (Hcalls : (wire_run portfolio_open
                      [EMessage 0%nat (JString tick_2_53_2_text) returning]).2
                   = [GapCall spy "portfolio" (2 ^ 53) (2 ^ 53 + 2);
                      HandlerCall "portfolio" first_handler (tick_envelope (2 ^ 53 + 2))])
    by (vm_compute; reflexivity).
  cbn zeta. split; [vm_compute; reflexivity |]. split; [vm_compute; reflexivity |].
  split; [exact Hcalls |]. rewrite Hcalls. intros [H _]%Forall_cons. by apply H.
Qed.

(** C6, as stated, fails.  A handler subscribed twice to a channel is
    invoked twice by one dispatch; and when the first of two subscribers
    throws, the second one, although registered, is not invoked. *)
Lemma dispatch_repeats_and_stops :
  let twice := (subscribe (subscribe new_WebSocketManager "market" first_handler).1
                          "market" first_handler).1 in
  invoked (calls (handleMessage Wire.JSON_parse returning twice "market" (JString tick1_text)))
  = [("market", first_handler, tick_envelope 1); ("market", first_handler, tick_envelope 1)]
  ∧ handlers watched !! "market" = Some [first_handler; second_handler]
  ∧ invoked (calls (handleMessage Wire.JSON_parse first_throws watched "market"
                      (JString tick1_text)))
    = [("market", first_handler, tick_envelope 1)]
  ∧ thrown (handleMessage Wire.JSON_parse first_throws watched "market" (JString tick1_text))
    = Some (SubscriberThrew first_handler).
Proof. vm_compute. repeat split. Qed.

(** C7, as stated, fails: when the same handler is subscribed twice to a
    channel, the disposer of the first subscription removes the registration
    of the second subscription as well, and the handler receives nothing any
    more although the second subscription was never disposed of. *)
Lemma disposer_removes_other_subscriptions_of_its_handler :
  let s1 := subscribe new_WebSocketManager "market" first_handler in
  let s2 := subscribe s1.1 "market" first_handler in
  handlers s2.1 !! "market" = Some [first_handler; first_handler]
  ∧ handlers (s1.2 s2.1) !! "market" = Some []
  ∧ calls (handleMessage Wire.JSON_parse returning (s1.2 s2.1) "market" (JString tick1_text))
    = [].
Proof. vm_compute. repeat split. Qed.

(** C8, as stated, fails.  After a first session and [closeAll] the manager
    still holds the sequence 1 and the first subscriber of the market
    channel; the cycle that on a fresh manager invokes the new subscriber
    only, here reports a gap for its first message and invokes the earlier
    subscriber as well. *)
Lemma closeAll_keeps_sequences_and_subscriptions :
  let used := closeAll (wire_run new_World first_session).1 in
  lastSeq (manager used) !! "market" = Some 1
  ∧ handlers (manager used) !! "market" = Some [first_handler]
  ∧ (wire_run new_World (cycle 0%nat)).2
    = [HandlerCall "market" second_handler (tick_envelope 5)]
  ∧ (wire_run used (cycle 1%nat)).2
    = [GapCall spy "market" 2 5;
       HandlerCall "market" first_handler (tick_envelope 5);
       HandlerCall "market" second_handler (tick_envelope 5)].
Proof. vm_compute. repeat split. Qed.

(** C9, as stated, fails: an envelope that names the market channel and
    arrives on the portfolio connection is validated and compared with the
    sequence of the portfolio channel, but when the gap observer throws it is
    neither counted (the stored sequence stays 1) nor dispatched to the
    subscriber of the portfolio channel. *)
Lemma routed_envelope_not_counted_when_observer_throws :
  let w1 := world_after (wire_step portfolio_open
                           (EMessage 0%nat (JString tick1_text) returning)) in
  let o := wire_step w1 (EMessage 0%nat (JString tick3_text) observer_fails) in
  Wire.JSON_parse tick3_text = Some (tick 3)
  ∧ envelopeSchema_safeParse (tick 3) = Some (mkEnvelope "tick" market 3 (JObject []))
  ∧ (ws_channel <$> heap w1 !! 0%nat) = Some portfolio
  ∧ lastSeq (manager w1) !! "portfolio" = Some 1
  ∧ handlers (manager w1) !! "portfolio" = Some [first_handler]
  ∧ world_calls o = [GapCall spy "portfolio" 2 3]
  ∧ lastSeq (manager (world_after o)) !! "portfolio" = Some 1
  ∧ invoked (world_calls o) = []
  ∧ uncaught o = Some (ObserverThrew spy).
Proof. vm_compute. repeat split. Qed.

(** C10, as stated, fails: processing without an observer is not identical
    to the observer-present case when the observer throws.  The same message
    on the same manager stores its sequence and reaches both subscribers
    without an observer; with an observer that throws, the sequence is not
    stored and no subscriber is reached. *)
Lemma observer_present_case_differs_when_it_throws :
  let o := handleMessage Wire.JSON_parse observer_fails unwatched "market"
             (JString tick3_text) in
  let o' := handleMessage Wire.JSON_parse observer_fails (onGapDetected unwatched spy)
              "market" (JString tick3_text) in
  gapHandler unwatched = None
  ∧ lastSeq unwatched !! "market" = Some 1
  ∧ calls o = [HandlerCall "market" first_handler (tick_envelope 3);
               HandlerCall "market" second_handler (tick_envelope 3)]
  ∧ lastSeq (after o) !! "market" = Some 3
  ∧ thrown o = None
  ∧ calls o' = [GapCall spy "market" 2 3]
  ∧ lastSeq (after o') !! "market" = Some 1
  ∧ thrown o' = Some (ObserverThrew spy).
Proof. vm_compute. repeat split. Qed.

Lemma handleMessage_throws_on_malformed_text_witness :
  handleMessage Wire.JSON_parse returning watched "market" (JString truncated_text)
  = mkOutcome watched [] (Some SyntaxError).
Proof.
  apply (handleMessage_throws_on_malformed_text Wire.JSON_parse returning watched "market"
           truncated_text).
  vm_compute. reflexivity.
Defined.

Lemma invalid_envelope_dropped_witness :
  handleMessage Wire.JSON_parse returning unwatched "market" (JString no_channel_text)
  = mkOutcome unwatched [] None.
Proof.
  apply (invalid_envelope_dropped Wire.JSON_parse returning unwatched "market"
           (JString no_channel_text)
           (JObject [("kind", JString "tick"); ("sequence", JNumber (Finite (inject_Z 2)));
                     ("payload", JObject [])])).
  - vm_compute. reflexivity.
  - intros [env Henv]%safeParse_shape. vm_compute in Henv. discriminate.
Defined.

Lemma gap_signal_on_mismatch_witness :
  let o := handleMessage Wire.JSON_parse returning
             (after (handleMessage Wire.JSON_parse returning watched "market"
                       (JString tick1_text)))
             "market" (JString tick3_text) in
  gap_calls (calls o) = [GapCall spy "market" 2 3]
  ∧ calls o = [GapCall spy "market" 2 3;
               HandlerCall "market" first_handler (tick_envelope 3);
               HandlerCall "market" second_handler (tick_envelope 3)]
  ∧ lastSeq (after o) !! "market" = Some 3.
Proof.
  pose proof (gap_signal_on_mismatch Wire.JSON_parse returning returning watched "market" spy
                (JString tick1_text) (JString tick3_text) (tick 1) (tick 3)
                (tick_envelope 1) (tick_envelope 3)
                eq_refl eq_refl eq_refl eq_refl eq_refl eq_refl eq_refl
                ltac:(vm_compute; discriminate)) as (Hgap & Hret & _).
  destruct (Hret eq_refl) as (Hcalls & Hseq & _).
  split; [exact Hgap |]. split; [exact Hcalls | exact Hseq].
Defined.

(** The portfolio scenario: sequence 5 first, then an envelope without a
    channel, then sequence 6, with an observer registered. *)
Lemma consecutive_sequences_raise_no_gap_witness :
  gapHandler (manager portfolio_open) = Some spy
  ∧ Forall (λ call, ¬ is_gap_on "portfolio" call)
           (wire_run portfolio_open
              [EMessage 0%nat (JString tick5_text) returning;
               EMessage 0%nat (JString no_channel_text) returning;
               EMessage 0%nat (JString tick6_text) returning]).2.
Proof.
  split; [reflexivity |].
  apply (consecutive_sequences_raise_no_gap Wire.JSON_parse Wire.WebSocket_accepts
           portfolio_open
           [EMessage 0%nat (JString tick5_text) returning;
            EMessage 0%nat (JString no_channel_text) returning;
            EMessage 0%nat (JString tick6_text) returning]
           "portfolio" 5 2).
  - vm_compute. reflexivity.
  - vm_compute. reflexivity.
  - vm_compute. discriminate.
Defined.

Lemma dispatch_in_registration_order_witness :
  invoked (calls (handleMessage Wire.JSON_parse returning watched "market"
                    (JString tick1_text)))
  = [("market", first_handler, tick_envelope 1); ("market", second_handler, tick_envelope 1)].
Proof.
  pose proof (dispatch_in_registration_order Wire.JSON_parse Wire.WebSocket_accepts
                returning watched "market" (JString tick1_text) (tick 1) (tick_envelope 1)
                eq_refl eq_refl) as (Hinv & _).
  exact Hinv.
Defined.

(** A disposer at work on the manager with two subscribers. *)
Lemma disposer_removes_its_handler_witness :
  let m := (subscribe new_WebSocketManager "market" first_handler).2 watched in
  handlers m !! "market" = Some [second_handler]
  ∧ invoked (calls (track_and_dispatch returning m "market" (tick_envelope 1)))
    = [("market", second_handler, tick_envelope 1)].
Proof.
  pose proof (disposer_removes_its_handler new_WebSocketManager "market" first_handler)
    as (Hlist & _ & _ & _ & _ & _ & _ & _ & Hcalls).
  split; [exact (Hlist watched) | exact (Hcalls returning watched (tick_envelope 1))].
Defined.

(** A market envelope arriving on the portfolio connection, and an envelope
    of an unknown channel. *)
Lemma routing_follows_the_connection_witness :
  let o := on_message Wire.JSON_parse returning portfolio_open 0%nat (JString tick5_text) in
  lastSeq (manager (world_after o)) !! "portfolio" = Some 5
  ∧ lastSeq (manager (world_after o)) !! "market" = None
  ∧ invoked (world_calls o) = [("portfolio", first_handler, tick_envelope 5)]
  ∧ on_message Wire.JSON_parse returning portfolio_open 0%nat (JString unknown_channel_text)
    = quiet portfolio_open.
Proof.
  pose proof (routing_follows_the_connection Wire.JSON_parse Wire.WebSocket_accepts
                returning portfolio_open 0%nat
                (mkSocket "ws://localhost:8000/ws/portfolio" portfolio OPEN)
                (JString tick5_text) (tick 5) eq_refl eq_refl eq_refl) as (_ & Hacc & _).
  destruct (Hacc (tick_envelope 5) eq_refl) as (_ & _ & _ & _ & Hother & Hseq & Hinv & _).
  split; [exact Hseq |]. split; [| split; [exact Hinv |]].
  - rewrite (Hother "market") by discriminate. reflexivity.
  - apply (routing_follows_the_connection Wire.JSON_parse Wire.WebSocket_accepts
             returning portfolio_open 0%nat
             (mkSocket "ws://localhost:8000/ws/portfolio" portfolio OPEN)
             (JString unknown_channel_text)
             (JObject [("kind", JString "tick"); ("stream", JString "orders");
                       ("sequence", JNumber (Finite (inject_Z 2))); ("payload", JObject [])])
             eq_refl eq_refl eq_refl).
    intros props ch [= <-]. destruct ch; vm_compute; discriminate.
Defined.

Lemma unobserved_gap_is_silent_witness :
  let o := handleMessage Wire.JSON_parse returning unwatched "market" (JString tick3_text) in
  calls o = [HandlerCall "market" first_handler (tick_envelope 3);
             HandlerCall "market" second_handler (tick_envelope 3)]
  ∧ lastSeq (after o) !! "market" = Some 3.
Proof.
  pose proof (unobserved_gap_is_silent Wire.JSON_parse Wire.WebSocket_accepts returning
                unwatched "market" spy (JString tick3_text) (tick 3) (tick_envelope 3)
                eq_refl eq_refl eq_refl) as (Hcalls & Hseq & _).
  split; [exact Hcalls | exact Hseq].
Defined.

(** ** Further properties of the manager *)

Lemma last_after_cons (d : option Z) (x : Z) (l : list Z) :
  from_option Some (Some x) (last l) = from_option Some d (last (x :: l)).
Proof. rewrite last_cons. by destruct (last l). Qed.

Lemma gaps_on_app c cs1 cs2 : gaps_on c (cs1 ++ cs2) = gaps_on c cs1 ++ gaps_on c cs2.
Proof. apply omap_app. Qed.

Lemma gaps_on_handler_calls c c' env (l : list Handler) :
  gaps_on c (map (λ h, HandlerCall c' h env) l) = [].
Proof. induction l; [done | by simpl]. Qed.

Lemma gaps_on_track b m c c' env :
  (∀ g x y, observer_throws b g c' x y = false) →
  gaps_on c (calls (track_and_dispatch b m c' env))
  = if String.eqb c' c then
      match gapHandler m with
      | Some g => map (λ p, (g, p)) (mismatches (lastSeq m !! c') [sequence env])
      | None => []
      end
    else [].
Proof.
  intros Hret. unfold track_and_dispatch. cbn zeta. cbn [mismatches]. rewrite app_nil_r.
  case_bool_decide.
  - destruct (gapHandler m) as [g|].
    + rewrite Hret, store_calls, gaps_on_app, gaps_on_handler_calls, app_nil_r. simpl.
      by destruct (String.eqb c' c).
    + rewrite store_calls, gaps_on_app, gaps_on_handler_calls. by destruct (String.eqb c' c).
  - rewrite store_calls, gaps_on_app, gaps_on_handler_calls.
    destruct (gapHandler m); by destruct (String.eqb c' c).
Qed.

Lemma blocked_returns b m c env :
  (∀ g x y, observer_throws b g c x y = false) → blocked b m c env = false.
Proof.
  intros Hret. unfold blocked. case_bool_decide; [| done].
  destruct (gapHandler m); [apply Hret | done].
Qed.

Section Lifecycle.

Variable JSON_parse : string → option JSValue.
Variable WebSocket_accepts : string → bool.

Local Abbreviation handle := (handleMessage JSON_parse).
Local Abbreviation step' := (step JSON_parse WebSocket_accepts).
Local Abbreviation run' := (run JSON_parse WebSocket_accepts).
Local Abbreviation observed' := (observed JSON_parse).
Local Abbreviation observations' := (observations JSON_parse WebSocket_accepts).
Local Abbreviation accepted' := (accepted JSON_parse).
Local Abbreviation acceptances' := (acceptances JSON_parse WebSocket_accepts).

(** X1: what can leave [handleMessage].  It throws [SyntaxError] exactly
    when the raw message is a string that the decoder cannot decode; it ends
    with the exception of the gap observer exactly when a validated envelope
    makes the manager call the observer and the observer throws; it ends with
    the exception of a subscriber exactly when the envelope got stored and
    that subscriber is the first of the channel to throw; otherwise it
    returns.  A raw message that is not a string is never decoded: it is
    validated as it is. *)
Theorem handleMessage_exceptions
    (b : Behaviour) (m : Manager) (c : string) (raw : JSValue) :
  (thrown (handle b m c raw) = Some SyntaxError
   ↔ ∃ text, raw = JString text ∧ JSON_parse text = None)
  ∧ (∀ g, thrown (handle b m c raw) = Some (ObserverThrew g)
          ↔ ∃ v env, decode JSON_parse raw = Some v ∧ envelopeSchema_safeParse v = Some env
                     ∧ gapHandler m = Some g ∧ blocked b m c env = true)
  ∧ (∀ h, thrown (handle b m c raw) = Some (SubscriberThrew h)
          ↔ ∃ v env, decode JSON_parse raw = Some v ∧ envelopeSchema_safeParse v = Some env
                     ∧ blocked b m c env = false
                     ∧ first_thrower b env (default [] (handlers m !! c)) = Some h)
  ∧ thrown (handle b m c raw) ≠ Some DOMException
  ∧ ((∀ text, raw ≠ JString text) →
       handle b m c raw = match envelopeSchema_safeParse raw with
                          | Some env => track_and_dispatch b m c env
                          | None => mkOutcome m [] None
                          end).
Proof.
  fold (handlers_of m c).
  assert (Htrack : ∀ env,
            thrown (track_and_dispatch b m c env)
            = if blocked b m c env then ObserverThrew <$> gapHandler m
              else SubscriberThrew <$> first_thrower b env (handlers_of m c)).
  { intros env. destruct (blocked b m c env) eqn:E.
    - destruct (track_blocked _ _ _ _ E) as (_ & _ & g & -> & ->). done.
    - by destruct (track_accepted _ _ _ _ E) as (_ & _ & ->). }
  destruct (handleMessage_cases JSON_parse b m c raw)
    as [[Hd ->] | [(v & Hd & Hv & ->) | (v & env & Hd & Hv & ->)]]; cbn [thrown].
  - split; [| split; [| split; [| split]]].
    + split; [intros _ | done]. destruct raw; try discriminate. by eexists.
    + intros g. split; [discriminate |]. intros (v & env & Hd' & _). congruence.
    + intros h. split; [discriminate |]. intros (v & env & Hd' & _). congruence.
    + discriminate.
    + intros Hns. destruct raw; try discriminate. by destruct (Hns s).
  - split; [| split; [| split; [| split]]].
    + split; [discriminate |]. intros (text & -> & Hp). simpl in Hd. congruence.
    + intros g. split; [discriminate |]. intros (v' & env & Hd' & Hv' & _). congruence.
    + intros h. split; [discriminate |]. intros (v' & env & Hd' & Hv' & _). congruence.
    + discriminate.
    + intros Hns. destruct raw; simpl in Hd; try (injection Hd as <-; by rewrite Hv).
      by destruct (Hns s).
  - rewrite Htrack. split; [| split; [| split; [| split]]].
    + split.
      * destruct (blocked b m c env); [by destruct (gapHandler m) |].
        by destruct (first_thrower b env (handlers_of m c)).
      * intros (text & -> & Hp). simpl in Hd. congruence.
    + intros g. split.
      * intros Ht. exists v, env. destruct (blocked b m c env) eqn:E.
        -- destruct (gapHandler m) as [g'|]; [| discriminate]. by injection Ht as ->.
        -- by destruct (first_thrower b env (handlers_of m c)).
      * intros (v' & env' & Hd' & Hv' & Hg & Hb).
        assert (env' = env) as -> by congruence. by rewrite Hb, Hg.
    + intros h. split.
      * intros Ht. exists v, env. destruct (blocked b m c env) eqn:E.
        -- by destruct (gapHandler m).
        -- destruct (first_thrower b env (handlers_of m c)) as [h'|]; [| discriminate].
           by injection Ht as ->.
      * intros (v' & env' & Hd' & Hv' & Hb & Hf).
        assert (env' = env) as -> by congruence. by rewrite Hb, Hf.
    + destruct (blocked b m c env); [by destruct (gapHandler m) |].
      by destruct (first_thrower b env (handlers_of m c)).
    + intros Hns. destruct raw; simpl in Hd; try (injection Hd as <-; by rewrite Hv).
      by destruct (Hns s).
Qed.




(** What a step stores. *)
Lemma step_lastSeq w e c :
  lastSeq (manager (world_after (step' w e))) !! c
  = from_option Some (lastSeq (manager w) !! c)
                (last (sequences_on c (option_list (accepted' w e)))).
Proof.
  unfold accepted. destruct (observed' w e) as [[c' env]|] eqn:Ho.
  - rewrite (step_observed JSON_parse WebSocket_accepts _ _ _ _ Ho). cbn [world_after manager]. cbn zeta.
    rewrite track_after. destruct (blocked (behaviour_of e) (manager w) c' env); [done |].
    change (option_list (Some (c', env))) with [(c', env)].
    rewrite sequences_on_cons. cbn [lastSeq set_lastSeq].
    destruct (String.eqb_spec c' c) as [-> | Hne]; simpl.
    + by rewrite lookup_insert_eq.
    + by rewrite lookup_insert_ne.
  - by destruct (step_unobserved JSON_parse WebSocket_accepts _ _ Ho) as [_ ->].
Qed.

Lemma sequences_on_app c l1 l2 :
  sequences_on c (l1 ++ l2) = sequences_on c l1 ++ sequences_on c l2.
Proof. apply omap_app. Qed.

Lemma run_lastSeq es :
  ∀ w c, lastSeq (manager (run' w es).1) !! c
         = from_option Some (lastSeq (manager w) !! c)
                       (last (sequences_on c (acceptances' w es))).
Proof.
  induction es as [| e es IH]; intros w c; [done |].
  rewrite run_cons. cbn [fst acceptances]. rewrite IH, step_lastSeq, sequences_on_app.
  destruct (sequences_on c (acceptances' (world_after (step' w e)) es)) as [| x l] eqn:E
    using rev_ind.
  - by rewrite app_nil_r.
  - by rewrite app_assoc, !last_snoc.
Qed.

Lemma acceptances_observations es :
  ∀ w, Forall observer_returns es → acceptances' w es = observations' w es.
Proof.
  induction es as [| e es IH]; intros w Hes; [done |].
  apply Forall_cons in Hes as [He Hes]. cbn [acceptances observations].
  rewrite IH by done. f_equal. unfold accepted.
  destruct (observed' w e) as [[c env]|]; [| done].
  rewrite blocked_returns; [done |]. intros g x y. apply He.
Qed.

(** X3: the tracker is forward-only.  At any moment the sequence stored for
    a channel is the one of the validated envelope accepted last on that
    channel (observed, and not held back by a gap observer that threw), be it
    lower than an earlier one, and what was stored at the start when none was
    accepted; connecting, closing, subscribing, rejected messages and the
    traffic of other channels leave it alone.  When no gap observer throws,
    every observed envelope is accepted. *)
Theorem stored_sequence_is_the_last_accepted
    (w : World) (es : list Event) (c : string) :
  lastSeq (manager (run' w es).1) !! c
  = match last (sequences_on c (acceptances' w es)) with
    | Some latest => Some latest
    | None => lastSeq (manager w) !! c
    end
  ∧ (Forall observer_returns es → acceptances' w es = observations' w es).
Proof.
  split; [| apply acceptances_observations].
  rewrite run_lastSeq. by destruct (last _).
Qed.

Lemma run_gaps_on es :
  ∀ w g c, gapHandler (manager w) = Some g →
           Forall (λ e, ∀ g', e ≠ EOnGapDetected g') es →
           Forall observer_returns es →
           gaps_on c (run' w es).2
           = map (λ p, (g, p))
                 (mismatches (lastSeq (manager w) !! c)
                             (sequences_on c (observations' w es))).
Proof.
  induction es as [| e es IH]; intros w g c Hg Hes Hret; [done |].
  apply Forall_cons in Hes as [He Hes]. apply Forall_cons in Hret as [Hr Hret].
  rewrite run_cons. cbn [snd observations].
  rewrite gaps_on_app, (IH _ g) by (by rewrite ?step_gapHandler).
  destruct (observed' w e) as [[c' env]|] eqn:Ho.
  - rewrite (step_observed JSON_parse WebSocket_accepts _ _ _ _ Ho). cbn [world_after world_calls manager option_list].
    cbn zeta. rewrite gaps_on_track, Hg by (intros; apply Hr).
    change (option_list (Some (c', env)) ++ ?l) with ((c', env) :: l).
    rewrite sequences_on_cons, track_after, blocked_returns by (intros; apply Hr).
    destruct (String.eqb_spec c' c) as [-> | Hne].
    + cbn [lastSeq set_lastSeq]. rewrite lookup_insert_eq. cbn [mismatches app].
      rewrite app_nil_r, map_app. done.
    + cbn [lastSeq set_lastSeq]. by rewrite lookup_insert_ne.
  - destruct (step_unobserved JSON_parse WebSocket_accepts _ _ Ho) as [-> ->]. done.
Qed.

(** X4: with one observer registered throughout, which returns whenever it
    is called, the gap signals of a channel are determined by the sequences
    observed on it: one signal (expected, received) for every observed
    sequence that is not the one expected after the stored or previously
    observed one, in order, and no other.  Below 2^53 the sequence expected
    after p is p + 1, and the first sequence of a channel is the one
    expected. *)
Theorem gap_signals_are_the_mismatches
    (w : World) (g : GapHandler) (es : list Event) (c : string) :
  gapHandler (manager w) = Some g →
  Forall (λ e, ∀ g', e ≠ EOnGapDetected g') es →
  Forall observer_returns es →
  gaps_on c (run' w es).2
  = map (λ p, (g, p))
        (mismatches (lastSeq (manager w) !! c) (sequences_on c (observations' w es)))
  ∧ (∀ p x, 0 <= p < 2 ^ 53 →
       mismatches (Some p) [x] = if bool_decide (x ≠ p + 1) then [(p + 1, x)] else [])
  ∧ (∀ x, 0 <= x <= 2 ^ 53 → mismatches None [x] = []).
Proof.
  intros Hg Hes Hret. split; [by apply run_gaps_on |]. split.
  - intros p x Hp. cbn [mismatches]. by rewrite expected_after_next, app_nil_r.
  - intros x Hx. cbn [mismatches]. rewrite expected_after_first by done.
    by rewrite bool_decide_eq_false_2 by (intros H; by apply H).
Qed.

End Lifecycle.

(** ** Invariants of a run *)

Lemma new_World_sequences_valid : sequences_valid (manager new_World).
Proof. intros c n H. simpl in H. by rewrite lookup_empty in H. Qed.

Lemma new_World_sockets_valid : sockets_valid new_World.
Proof. intros c ws H. simpl in H. by rewrite lookup_empty in H. Qed.

Lemma set_readyState_lookup w ws r i :
  heap (set_readyState w ws r) !! i
  = (λ s, if decide (ws = i) then mkSocket (ws_url s) (ws_channel s) r else s) <$> heap w !! i.
Proof.
  unfold set_readyState. cbn [heap]. destruct (decide (ws = i)) as [-> | Hne].
  - rewrite list_lookup_alter_eq. apply option_fmap_ext. intros s.
    by repeat case_decide.
  - rewrite list_lookup_alter_ne by done.
    transitivity (id <$> heap w !! i); [by rewrite option_fmap_id |].
    apply option_fmap_ext. intros s. by repeat case_decide.
Qed.

Section Invariants.

Variable JSON_parse : string → option JSValue.
Variable WebSocket_accepts : string → bool.

Local Abbreviation step' := (step JSON_parse WebSocket_accepts).
Local Abbreviation run' := (run JSON_parse WebSocket_accepts).

(** A delivery changes nothing of the manager but the stored sequences. *)
Lemma on_message_manager b w ws raw :
  sockets (manager (world_after (on_message JSON_parse b w ws raw))) = sockets (manager w)
  ∧ handlers (manager (world_after (on_message JSON_parse b w ws raw))) = handlers (manager w)
  ∧ gapHandler (manager (world_after (on_message JSON_parse b w ws raw)))
    = gapHandler (manager w)
  ∧ heap (world_after (on_message JSON_parse b w ws raw)) = heap w.
Proof.
  destruct (observed JSON_parse w (EMessage ws raw b)) as [[c env]|] eqn:Ho.
  - change (on_message JSON_parse b w ws raw) with (step' w (EMessage ws raw b)).
    rewrite (step_observed JSON_parse WebSocket_accepts _ _ _ _ Ho). cbn.
    by rewrite track_sockets, track_handlers, track_gapHandler.
  - by apply on_message_unobserved in Ho as [-> _].
Qed.

Lemma step_sequences_valid w e :
  sequences_valid (manager w) → sequences_valid (manager (world_after (step' w e))).
Proof.
  intros Hv. destruct (observed JSON_parse w e) as [[c env]|] eqn:Ho.
  - rewrite (step_observed JSON_parse WebSocket_accepts _ _ _ _ Ho). cbn [world_after manager]. cbn zeta.
    intros c' n. rewrite track_after.
    destruct (blocked (behaviour_of e) (manager w) c env); [apply Hv |].
    cbn [lastSeq set_lastSeq].
    destruct (decide (c = c')) as [<- | Hne].
    + rewrite lookup_insert_eq. intros [= <-].
      split; [by eapply observed_nonneg |].
      apply observed_inv in Ho as (ws & raw & b & s & v & _ & _ & _ & _ & _ & ->).
      by exists (ws_channel s).
    + rewrite lookup_insert_ne by done. apply Hv.
  - intros c n. destruct (step_unobserved JSON_parse WebSocket_accepts _ _ Ho) as [_ ->]. apply Hv.
Qed.

Lemma run_sequences_valid es :
  ∀ w, sequences_valid (manager w) → sequences_valid (manager (run' w es).1).
Proof.
  induction es as [| e es IH]; intros w Hv; [done |].
  rewrite run_cons. simpl. by apply IH, step_sequences_valid.
Qed.

Lemma connect_sockets_valid w ch url :
  sockets_valid w → sockets_valid (world_after (connect WebSocket_accepts w ch url)).
Proof.
  intros Hv. unfold connect. destruct (WebSocket_accepts url); [| exact Hv].
  intros c ws Hc. simpl in Hc.
  destruct (decide (stream_name ch = c)) as [<- | Hne].
  - rewrite lookup_insert_eq in Hc. injection Hc as <-.
    eexists. simpl. rewrite lookup_app_r, Nat.sub_diag by done. done.
  - rewrite lookup_insert_ne in Hc by done.
    destruct (Hv c ws Hc) as (s & Hs & Hch). exists s. simpl.
    split; [| done]. rewrite lookup_app_l; [done |]. by eapply lookup_lt_Some.
Qed.

Lemma step_sockets_valid w e :
  sockets_valid w → sockets_valid (world_after (step' w e)).
Proof.
  intros Hv. destruct e; simpl; try exact Hv.
  - by apply connect_sockets_valid.
  - intros c ws Hc. simpl in Hc. by rewrite lookup_empty in Hc.
  - destruct (heap w !! ws) as [s|] eqn:Hs; [| exact Hv].
    destruct (readyState s); try exact Hv.
    intros c ws' Hc. destruct (Hv c ws' Hc) as (s' & Hs' & Hch).
    cbn [quiet world_after]. rewrite set_readyState_lookup, Hs'. simpl.
    eexists. split; [done |]. by destruct (decide (ws = ws')).
  - destruct (on_message_manager b w ws raw) as (Hsock & _ & _ & Hheap).
    intros c ws' Hc. rewrite Hsock in Hc. rewrite Hheap. exact (Hv c ws' Hc).
  - intros c ws' Hc. destruct (Hv c ws' Hc) as (s' & Hs' & Hch).
    cbn [quiet world_after]. rewrite set_readyState_lookup, Hs'. simpl.
    eexists. split; [done |]. by destruct (decide (ws = ws')).
Qed.

Lemma run_sockets_valid es :
  ∀ w, sockets_valid w → sockets_valid (run' w es).1.
Proof.
  induction es as [| e es IH]; intros w Hv; [done |].
  rewrite run_cons. simpl. by apply IH, step_sockets_valid.
Qed.

(** X5: whatever happens to a manager, every sequence it stores is a
    non-negative integer, stored under the name of one of the three
    channels. *)
Theorem stored_sequences_stay_valid (w : World) (es : list Event) :
  sequences_valid (manager w) → sequences_valid (manager (run' w es).1).
Proof. apply run_sequences_valid. Qed.

(** X6: whatever happens to a manager, every entry of its connection map
    names a socket that exists and that [connect] created for the channel of
    the entry. *)
Theorem connection_map_stays_valid (w : World) (es : list Event) :
  sockets_valid w → sockets_valid (run' w es).1.
Proof. apply run_sockets_valid. Qed.

(** X7: [connect] on a channel that already has a connection does not close
    it.  When the constructor accepts the address, the new socket takes the
    place of the earlier one in the connection map; the earlier socket keeps
    its state, and a later [closeAll] never reaches it: if it was open it
    stays open and its messages are still handled.  When the constructor
    refuses the address, [connect] throws and the manager, with the earlier
    socket in its map, is as before. *)
Theorem connect_leaves_the_replaced_socket
    (w : World) (ch : Stream) (url : string) (old : SocketId) (s : Socket) :
  sockets_valid w →
  sockets (manager w) !! stream_name ch = Some old →
  heap w !! old = Some s →
  let o := connect WebSocket_accepts w ch url in
  let w' := closeAll (world_after o) in
  (WebSocket_accepts url = true →
     uncaught o = None
     ∧ sockets (manager (world_after o)) !! stream_name ch = Some (length (heap w))
     ∧ heap (world_after o) !! old = Some s
     ∧ heap w' !! old = Some s
     ∧ sockets (manager w') = ∅
     ∧ (∀ b raw, readyState s = OPEN →
          on_message JSON_parse b w' old raw
          = let r := handleMessage JSON_parse b (manager w') (stream_name (ws_channel s)) raw in
            mkWorldOutcome (mkWorld (after r) (heap w')) (calls r) (thrown r)))
  ∧ (WebSocket_accepts url = false →
       o = mkWorldOutcome w [] (Some DOMException)
       ∧ sockets (manager (world_after o)) !! stream_name ch = Some old).
Proof.
  intros Hv Hold Hs o w'. subst o w'. unfold connect. split; intros ->; [| done].
  cbn [world_after quiet uncaught].
  assert (Hlt : (old < length (heap w))%nat) by (by eapply lookup_lt_Some).
  set (w1 := mkWorld _ _).
  assert (Hkeep : heap (closeAll w1) !! old = Some s).
  { unfold closeAll. cbn [heap]. rewrite close_each_other.
    - subst w1. cbn [heap]. by rewrite lookup_app_l.
    - intros ([c ws] & Heq & Hin%elem_of_map_to_list)%list_elem_of_fmap.
      simpl in Heq. subst ws. subst w1. cbn [manager sockets set_sockets] in Hin.
      destruct (decide (stream_name ch = c)) as [<- | Hne].
      + rewrite lookup_insert_eq in Hin. injection Hin as Hin. lia.
      + rewrite lookup_insert_ne in Hin by done.
        destruct (Hv c old Hin) as (s' & Hs' & Hch).
        destruct (Hv _ old Hold) as (s'' & Hs'' & Hch'). congruence. }
  split; [done |]. split; [subst w1; simpl; apply lookup_insert_eq |].
  split; [subst w1; simpl; by rewrite lookup_app_l |].
  split; [done |]. split; [done |].
  intros b raw Ho. by apply on_message_open.
Qed.

Lemma step_handlers w e c :
  (∀ h, e ≠ ESubscribe c h ∧ e ≠ EDispose c h) →
  handlers (manager (world_after (step' w e))) !! c = handlers (manager w) !! c.
Proof.
  intros Hne. destruct e; simpl; try done.
  - destruct (decide (channel = c)) as [-> | Hc]; [by destruct (Hne h) as [? _] |].
    by rewrite lookup_insert_ne.
  - destruct (decide (channel = c)) as [-> | Hc]; [by destruct (Hne h) as [_ ?] |].
    by rewrite lookup_insert_ne.
  - unfold connect. by destruct (WebSocket_accepts url).
  - destruct (heap w !! ws) as [s|]; [| done]. by destruct (readyState s).
  - by destruct (on_message_manager b w ws raw) as (_ & -> & _).
Qed.

Lemma run_handlers es c :
  ∀ w, Forall (λ e, ∀ h, e ≠ ESubscribe c h ∧ e ≠ EDispose c h) es →
       handlers (manager (run' w es).1) !! c = handlers (manager w) !! c.
Proof.
  induction es as [| e es IH]; intros w Hes; [done |].
  apply Forall_cons in Hes as [He Hes]. rewrite run_cons. simpl.
  rewrite IH by done. by apply step_handlers.
Qed.

Lemma handlers_of_run w es c :
  Forall (λ e, ∀ h, e ≠ ESubscribe c h ∧ e ≠ EDispose c h) es →
  handlers_of (manager (run' w es).1) c = handlers_of (manager w) c.
Proof. intros Hes. unfold handlers_of. by rewrite run_handlers. Qed.

(** X8: the subscribers of a channel survive everything but their own
    [subscribe] and disposer calls: connecting and reconnecting, [closeAll],
    a new gap observer, the transport's events, handled, rejected and
    undecodable messages, callbacks that throw, and subscriptions on other
    channels leave the handler list of the channel as it was. *)
Theorem subscriptions_survive_reconnection (w : World) (es : list Event) (c : string) :
  Forall (λ e, ∀ h, e ≠ ESubscribe c h ∧ e ≠ EDispose c h) es →
  handlers_of (manager (run' w es).1) c = handlers_of (manager w) c.
Proof. apply handlers_of_run. Qed.

End Invariants.

Lemma closeAll_twice w : closeAll (closeAll w) = closeAll w.
Proof.
  unfold closeAll at 1. cbn [manager closeAll sockets set_sockets].
  by rewrite map_to_list_empty.
Qed.

(** X9: when no connection was replaced, so that every socket is still in
    the connection map, [closeAll] leaves no socket open or connecting;
    calling it again changes nothing. *)
Theorem closeAll_closes_every_held_socket (w : World) :
  sockets_all_held w →
  (∀ ws s, heap (closeAll w) !! ws = Some s →
     readyState s = CLOSING ∨ readyState s = CLOSED)
  ∧ closeAll (closeAll w) = closeAll w.
Proof.
  intros Hheld. split; [| apply closeAll_twice].
  intros ws s Hs.
  assert (Hlt : (ws < length (heap w))%nat).
  { apply lookup_lt_Some in Hs. simpl in Hs. by rewrite close_each_length in Hs. }
  destruct (lookup_lt_is_Some_2 _ _ Hlt) as [s0 Hs0].
  destruct (Hheld ws s0 Hs0) as [c Hc].
  eapply close_each_closed; [| exact Hs].
  apply list_elem_of_fmap. exists (c, ws). split; [done |]. by apply elem_of_map_to_list.
Qed.

(** ** Callbacks that throw *)

Lemma first_thrower_split b env before h rest :
  Forall (λ h', subscriber_throws b h' env = false) before →
  subscriber_throws b h env = true →
  first_thrower b env (before ++ h :: rest) = Some h
  ∧ reached b env (before ++ h :: rest) = before ++ [h].
Proof.
  intros Hb Hh. unfold first_thrower. induction before as [| x before IH]; simpl.
  - by rewrite Hh.
  - apply Forall_cons in Hb as [Hx Hb]. rewrite Hx. destruct (IH Hb) as [-> ->]. done.
Qed.

Section Throwing.

Variable JSON_parse : string → option JSValue.

Local Abbreviation handle := (handleMessage JSON_parse).

(** X10: a subscriber that throws ends the dispatch.  The subscribers
    registered before it have been invoked, those registered after it are
    not; the exception leaves [handleMessage]; the sequence of the envelope
    is stored all the same and the gap signal, if any, has been delivered:
    manager and gap signals are those of the call in which every callback
    returns. *)
Theorem throwing_subscriber_cuts_the_dispatch
    (b : Behaviour) (m : Manager) (c : string) (raw v : JSValue) (env : Envelope)
    (before rest : list Handler) (h : Handler) :
  decode JSON_parse raw = Some v → envelopeSchema_safeParse v = Some env →
  handlers m !! c = Some (before ++ h :: rest) →
  Forall (λ h', subscriber_throws b h' env = false) before →
  subscriber_throws b h env = true →
  (∀ g x y, observer_throws b g c x y = false) →
  let o := handle b m c raw in
  thrown o = Some (SubscriberThrew h)
  ∧ invoked (calls o) = map (λ h', (c, h', env)) (before ++ [h])
  ∧ gap_calls (calls o) = gap_calls (calls (handle returning m c raw))
  ∧ after o = after (handle returning m c raw)
  ∧ lastSeq (after o) !! c = Some (sequence env).
Proof.
  intros Hd Hv Hhs Hb Hh Ho o. subst o.
  rewrite !(handleMessage_validated _ _ _ _ _ _ _ Hd Hv).
  assert (Hl : handlers_of m c = before ++ h :: rest) by (unfold handlers_of; by rewrite Hhs).
  destruct (first_thrower_split b env before h rest Hb Hh) as [Hf Hr].
  assert (Hnb : blocked b m c env = false) by (by apply blocked_returns).
  destruct (track_accepted _ _ _ _ Hnb) as (Ha & Hi & Ht).
  rewrite Ht, Hi, Hl, Hf, Hr, !track_gap_calls, !track_after, Hnb.
  rewrite blocked_returns by done.
  repeat split; try done. simpl. apply lookup_insert_eq.
Qed.

(** X11: a gap observer that throws ends [handleMessage] before anything
    else happens: the sequence of the envelope is not stored and no
    subscriber receives the envelope, so the manager is exactly as before
    the message. *)
Theorem throwing_observer_blocks_the_envelope
    (b : Behaviour) (m : Manager) (c : string) (raw v : JSValue) (env : Envelope)
    (g : GapHandler) (p : Z) :
  decode JSON_parse raw = Some v → envelopeSchema_safeParse v = Some env →
  gapHandler m = Some g → lastSeq m !! c = Some p → sequence env ≠ js_add p 1 →
  observer_throws b g c (js_add p 1) (sequence env) = true →
  handle b m c raw
  = mkOutcome m [GapCall g c (js_add p 1) (sequence env)] (Some (ObserverThrew g)).
Proof.
  intros Hd Hv Hg Hp Hne Ht. rewrite (handleMessage_validated _ _ _ _ _ _ _ Hd Hv).
  assert (He : expected_after (lastSeq m !! c) (sequence env) = js_add p 1)
    by (by rewrite Hp).
  rewrite (track_observer_threw b m c env g); rewrite ?He; done.
Qed.

End Throwing.

(** ** Re-validation *)

(** X12: validation strips an object down to the envelope.  The object
    made of the four properties of an envelope is accepted exactly when the
    sequence of the envelope is not negative, and validates to that very
    envelope; in particular the envelope obtained from any accepted value
    validates to itself. *)
Theorem envelope_revalidates_to_itself (env : Envelope) :
  (0 <= sequence env ↔ envelopeSchema_safeParse (envelope_value env) = Some env)
  ∧ (is_Some (envelopeSchema_safeParse (envelope_value env)) → 0 <= sequence env)
  ∧ (∀ v, envelopeSchema_safeParse v = Some env →
       envelopeSchema_safeParse (envelope_value env) = Some env).
Proof.
  assert (Hfwd : 0 <= sequence env →
                 envelopeSchema_safeParse (envelope_value env) = Some env).
  { intros Hn. apply safeParse_Some. eexists. split; [reflexivity |]. simpl.
    repeat split. exists (inject_Z (sequence env)). by repeat split. }
  assert (Hbwd : ∀ env', envelopeSchema_safeParse (envelope_value env) = Some env' →
                 0 <= sequence env).
  { intros env' (props & [= <-] & _ & _ & (q & Hq & Hqn & Hn) & _)%safeParse_Some.
    simpl in Hq. injection Hq as <-.
    unfold Qeq, inject_Z in Hqn. simpl in Hqn. lia. }
  split; [split; [exact Hfwd | apply Hbwd] |]. split.
  - intros [env' H]. by apply (Hbwd env').
  - intros v (props & _ & _ & _ & (q & _ & _ & Hn) & _)%safeParse_Some. by apply Hfwd.
Qed.

(** ** The stores *)

(** Prepending one by one under a cap keeps the newest entries, newest
    first. *)
Lemma prepend_capped_fold {A} (n : nat) (xs l : list A) :
  (length l <= n)%nat →
  foldl (λ acc x, take n (x :: acc)) l xs = take n (reverse xs ++ l).
Proof.
  revert l. induction xs as [| x xs IH]; intros l Hl; simpl.
  - by rewrite take_ge.
  - rewrite IH by (rewrite length_take; lia).
    rewrite reverse_cons, <- app_assoc. simpl.
    destruct (decide (length (reverse xs) < n)%nat) as [Hlt | Hge].
    + rewrite !take_app_ge by lia. f_equal.
      remember (n - length (reverse xs))%nat as k eqn:Hk.
      destruct k as [| k]; [lia |]. simpl. f_equal.
      rewrite take_take. by rewrite Nat.min_l by lia.
    + by rewrite !take_app_le by lia.
Qed.

Lemma alerts_fold_addAlert xs s :
  alertStore.alerts (foldl (λ s a, alertStore.addAlert a s) s xs)
  = foldl (λ acc x, take 5000%nat (x :: acc)) (alertStore.alerts s) xs.
Proof. revert s. induction xs as [| x xs IH]; intros s; [done |]. simpl. by rewrite IH. Qed.

(** X13: the alert list is a bounded log.  After any number of [addAlert]
    calls it holds the alerts added, newest first, in front of the earlier
    ones, cut to the 5000 newest; it never holds more than 5000.  The
    breaches of the risk store are kept the same way, cut to 500. *)
Theorem addAlert_keeps_the_newest (s : alertStore.AlertState) (xs : list AlertMessage.t) :
  (length (alertStore.alerts s) <= 5000)%nat →
  let s' := foldl (λ s a, alertStore.addAlert a s) s xs in
  alertStore.alerts s' = take 5000%nat (reverse xs ++ alertStore.alerts s)
  ∧ (length (alertStore.alerts s') <= 5000)%nat
  ∧ (∀ breaches, (length breaches <= 500)%nat →
       foldl (λ acc a, riskStore.addBreach a acc) breaches xs
       = take 500%nat (reverse xs ++ breaches)).
Proof.
  intros Hs s'. subst s'. rewrite alerts_fold_addAlert, prepend_capped_fold by done.
  split; [done |]. split; [rewrite length_take; lia |].
  intros breaches Hb. by apply (prepend_capped_fold 500%nat).
Qed.

Lemma acknowledge_idemp_alert a : AlertMessage.acknowledge (AlertMessage.acknowledge a)
                                  = AlertMessage.acknowledge a.
Proof. reflexivity. Qed.

(** X14: [acknowledge(id)] marks every alert with that id as acknowledged
    and changes nothing else: the alerts keep their number, their order and
    all their other fields, an acknowledged alert is never unmarked, an id
    that no alert has leaves the store as it is, acknowledging twice is
    acknowledging once, and acknowledgements commute. *)
Theorem acknowledge_marks_only_that_id (id : string) (s : alertStore.AlertState) :
  (∀ i a, alertStore.alerts s !! i = Some a →
     ∃ a', alertStore.alerts (alertStore.acknowledge id s) !! i = Some a'
           ∧ AlertMessage.id a' = AlertMessage.id a
           ∧ AlertMessage.ts a' = AlertMessage.ts a
           ∧ AlertMessage.severity a' = AlertMessage.severity a
           ∧ AlertMessage.message a' = AlertMessage.message a
           ∧ AlertMessage.source a' = AlertMessage.source a
           ∧ AlertMessage.acknowledged a'
             = AlertMessage.acknowledged a || String.eqb (AlertMessage.id a) id)
  ∧ length (alertStore.alerts (alertStore.acknowledge id s)) = length (alertStore.alerts s)
  ∧ ((∀ a, a ∈ alertStore.alerts s → AlertMessage.id a ≠ id) →
       alertStore.acknowledge id s = s)
  ∧ alertStore.acknowledge id (alertStore.acknowledge id s) = alertStore.acknowledge id s
  ∧ (∀ id', alertStore.acknowledge id (alertStore.acknowledge id' s)
            = alertStore.acknowledge id' (alertStore.acknowledge id s)).
Proof.
  destruct s as [l]. unfold alertStore.acknowledge. simpl.
  split; [| split; [| split; [| split]]].
  - intros i a Hi. rewrite list_lookup_fmap, Hi. simpl.
    eexists. split; [reflexivity |].
    destruct (String.eqb (AlertMessage.id a) id); destruct a as [? ? ? ? ? []]; simpl; tauto.
  - by rewrite length_map.
  - intros Hno. f_equal. induction l as [| a l IH]; [done |]. simpl.
    rewrite IH by (intros a' Ha'; apply Hno; by right). f_equal.
    destruct (String.eqb_spec (AlertMessage.id a) id) as [He | _]; [| done].
    exfalso. by apply (Hno a); [left |].
  - f_equal. rewrite <- list_fmap_compose. apply list_fmap_ext. intros _ a _. simpl.
    destruct (String.eqb (AlertMessage.id a) id) eqn:E; simpl; by rewrite E.
  - intros id'. f_equal. rewrite <- !list_fmap_compose. apply list_fmap_ext. intros _ a _.
    simpl.
    destruct (String.eqb (AlertMessage.id a) id) eqn:E;
      destruct (String.eqb (AlertMessage.id a) id') eqn:E'; simpl; by rewrite ?E, ?E'.
Qed.

Lemma foldl_insert_lookup {A} (key : A → string) (xs : list A) (o : gmap string A) (k : string) :
  foldl (λ acc x, <[key x := x]> acc) o xs !! k
  = match last (filter (λ x, key x = k) xs) with
    | Some x => Some x
    | None => o !! k
    end.
Proof.
  revert o. induction xs as [| x xs IH]; intros o; [done |]. simpl. rewrite IH.
  destruct (decide (key x = k)) as [He | Hne].
  - rewrite filter_cons_True by done. rewrite last_cons.
    destruct (last (filter _ xs)); [done |]. subst k. by rewrite lookup_insert_eq.
  - rewrite filter_cons_False by done. by rewrite lookup_insert_ne.
Qed.

Lemma fold_upsertOrder os s :
  foldl (λ s o, orderStore.upsertOrder o s) s os
  = orderStore.mk
      (foldl (λ acc o, <[Order.id o := o]> acc) (orderStore.activeOrders s) os)
      (foldl (λ acc o, take 5000%nat (o :: acc)) (orderStore.history s) os)
      (orderStore.fills s).
Proof.
  revert s. induction os as [| o os IH]; intros s; [by destruct s |].
  simpl. by rewrite IH.
Qed.

(** X15: the order store after a series of [upsertOrder] calls.  Under
    each id, [activeOrders] holds the order upserted last with that id, and
    what it held before when none was; no id ever leaves it, whatever the
    status of its order.  [history] holds every upsert, newest first, cut to
    the 5000 newest.  The fills are untouched. *)
Theorem upsertOrder_keeps_latest_per_id (s : orderStore.OrderState) (os : list Order.t) :
  (length (orderStore.history s) <= 5000)%nat →
  let s' := foldl (λ s o, orderStore.upsertOrder o s) s os in
  (∀ id, orderStore.activeOrders s' !! id
         = match last (filter (λ o, Order.id o = id) os) with
           | Some o => Some o
           | None => orderStore.activeOrders s !! id
           end)
  ∧ (∀ id, is_Some (orderStore.activeOrders s !! id) →
           is_Some (orderStore.activeOrders s' !! id))
  ∧ orderStore.history s' = take 5000%nat (reverse os ++ orderStore.history s)
  ∧ orderStore.fills s' = orderStore.fills s.
Proof.
  intros Hh s'. subst s'. rewrite fold_upsertOrder. cbn [orderStore.activeOrders
    orderStore.history orderStore.fills].
  split; [| split; [| split]].
  - intros id. apply foldl_insert_lookup.
  - intros id Hid. rewrite foldl_insert_lookup. by destruct (last _).
  - by apply prepend_capped_fold.
  - done.
Qed.

Lemma pending_among_perm os os' :
  os ≡ₚ os' → ExecutionStrip.pending_among os = ExecutionStrip.pending_among os'.
Proof. intros H. unfold ExecutionStrip.pending_among. by rewrite H. Qed.

(** X16: the figures of the execution strip.  [TRADES] is the number of
    fills shown, that is the number of fills kept or 12, whichever is less.
    [PENDING] counts every order id once, by the order upserted last under
    it: an upsert removes what the earlier order of that id contributed and
    adds one exactly when the new order is pending or partial. *)
Theorem execution_strip_figures (s : orderStore.OrderState) (o : Order.t) :
  ExecutionStrip.trades s = Nat.min 12 (length (orderStore.fills s))
  ∧ (ExecutionStrip.pending (orderStore.upsertOrder o s)
     + match orderStore.activeOrders s !! Order.id o with
       | Some old => if ExecutionStrip.is_pending old then 1 else 0
       | None => 0
       end
     = ExecutionStrip.pending s + if ExecutionStrip.is_pending o then 1 else 0)%nat
  ∧ (∀ fill, ExecutionStrip.pending (orderStore.addFill fill s) = ExecutionStrip.pending s).
Proof.
  split; [| split; [| done]].
  - unfold ExecutionStrip.trades, ExecutionStrip.tape. by rewrite length_take.
  - unfold ExecutionStrip.pending, ExecutionStrip.orders, orderStore.upsertOrder.
    cbn [orderStore.activeOrders].
    set (m := orderStore.activeOrders s). set (i := Order.id o).
    assert (Hnew : ExecutionStrip.pending_among (map_to_list (<[i := o]> m)).*2
                   = ((if ExecutionStrip.is_pending o then 1 else 0)
                      + ExecutionStrip.pending_among (map_to_list (delete i m)).*2)%nat).
    { rewrite <- insert_delete_eq.
      rewrite (pending_among_perm _ (o :: (map_to_list (delete i m)).*2)).
      - unfold ExecutionStrip.pending_among.
        destruct (ExecutionStrip.is_pending o) eqn:E.
        + by rewrite filter_cons_True.
        + rewrite filter_cons_False; [done |]. by rewrite E.
      - rewrite map_to_list_insert by apply lookup_delete_eq. done. }
    rewrite Hnew. destruct (m !! i) as [old|] eqn:Hold.
    + rewrite (pending_among_perm (map_to_list m).*2 (old :: (map_to_list (delete i m)).*2)).
      * unfold ExecutionStrip.pending_among at 2.
        destruct (ExecutionStrip.is_pending old) eqn:E.
        -- rewrite filter_cons_True by done. simpl.
           fold (ExecutionStrip.pending_among (map_to_list (delete i m)).*2). lia.
        -- rewrite filter_cons_False by (by rewrite E).
           fold (ExecutionStrip.pending_among (map_to_list (delete i m)).*2). lia.
      * rewrite <- (map_to_list_delete m i old) by done. done.
    + rewrite delete_id by done. lia.
Qed.

(** X17: [setPositions] replaces the whole snapshot.  Afterwards a symbol
    holds the last position of the list that carries it, whatever the store
    held before, and a symbol the list does not carry holds nothing.
    [usePosition] returns that position; for a symbol without one it returns
    [undefined], except for the names every object inherits, for which the
    lookup yields the inherited member. *)
Theorem setPositions_replaces_the_snapshot
    (ps : list Position.t) (s : positionStore.PositionState) (symbol : string) :
  let latest := last (filter (λ p, Position.symbol p = symbol) ps) in
  positionStore.positions (positionStore.setPositions ps s) !! symbol = latest
  ∧ positionStore.usePosition symbol (positionStore.setPositions ps s)
    = match latest with
      | Some p => Own p
      | None => if bool_decide (symbol ∈ Object_prototype_keys) then Inherited else Undefined
      end
  ∧ positionStore.setPositions ps (positionStore.setPositions ps s)
    = positionStore.setPositions ps s.
Proof.
  intros latest.
  assert (H : positionStore.positions (positionStore.setPositions ps s) !! symbol = latest).
  { unfold positionStore.setPositions, positionStore.Object_fromEntries. simpl.
    assert (Hfold : ∀ o : gmap string Position.t,
              foldl (λ o entry, <[entry.1 := entry.2]> o) o
                    (map (λ p, (Position.symbol p, p)) ps)
              = foldl (λ acc p, <[Position.symbol p := p]> acc) o ps).
    { induction ps as [| p ps IH]; intros o; [done |]. simpl. by rewrite IH. }
    rewrite Hfold, foldl_insert_lookup. subst latest. by destruct (last _). }
  split; [exact H |]. split; [| done].
  unfold positionStore.usePosition, read. rewrite H. by destruct latest.
Qed.

Lemma collapsed_toggle panel s :
  uiStore.collapsed (uiStore.togglePanel panel s) panel = negb (uiStore.collapsed s panel).
Proof.
  unfold uiStore.collapsed at 1, read, uiStore.togglePanel. simpl.
  by rewrite lookup_insert_eq.
Qed.

(** X18: [togglePanel] flips what a panel reads as and nothing else.  The
    panel toggled reads as the opposite of before, every other panel, the
    view and the range are unchanged, and two toggles restore the reading
    (the panel then has an entry of its own).  A panel never toggled reads
    as not collapsed, unless its name is one that every object inherits: such
    a panel reads as collapsed from the start. *)
Theorem togglePanel_flips_one_panel (panel : string) (s : uiStore.UiState) :
  uiStore.collapsed (uiStore.togglePanel panel s) panel = negb (uiStore.collapsed s panel)
  ∧ (∀ other, other ≠ panel →
       uiStore.collapsed (uiStore.togglePanel panel s) other = uiStore.collapsed s other)
  ∧ uiStore.collapsed (uiStore.togglePanel panel (uiStore.togglePanel panel s)) panel
    = uiStore.collapsed s panel
  ∧ uiStore.panelCollapsed (uiStore.togglePanel panel (uiStore.togglePanel panel s)) !! panel
    = Some (uiStore.collapsed s panel)
  ∧ uiStore.activeView (uiStore.togglePanel panel s) = uiStore.activeView s
  ∧ uiStore.range (uiStore.togglePanel panel s) = uiStore.range s
  ∧ (uiStore.collapsed uiStore.initial panel = true ↔ panel ∈ Object_prototype_keys).
Proof.
  split; [apply collapsed_toggle |]. split; [| split; [| split; [| split; [| split]]]];
    try done.
  - intros other Hne. unfold uiStore.collapsed, read, uiStore.togglePanel. simpl.
    by rewrite lookup_insert_ne.
  - rewrite !collapsed_toggle. apply negb_involutive.
  - unfold uiStore.togglePanel at 1. simpl. rewrite lookup_insert_eq.
    by rewrite collapsed_toggle, negb_involutive.
  - unfold uiStore.collapsed, read. simpl. rewrite lookup_empty.
    case_bool_decide; split; (done || discriminate).
Qed.

Lemma signal_key_injective id1 sym1 id2 sym2 :
  occurs colon id1 = false → occurs colon id2 = false →
  String.append id1 (String.append ":" sym1) = String.append id2 (String.append ":" sym2) →
  id1 = id2 ∧ sym1 = sym2.
Proof.
  revert id2. induction id1 as [| c1 id1 IH]; intros [| c2 id2]; simpl;
    intros H1 H2 He; cbv [String.append] in He; injection He as He.
  - by subst.
  - subst c2. by apply orb_false_iff in H2 as [? _].
  - subst c1. by apply orb_false_iff in H1 as [? _].
  - apply orb_false_iff in H1 as [_ H1]. apply orb_false_iff in H2 as [_ H2].
    subst c2. destruct (IH id2 H1 H2) as [-> ->]; done.
Qed.

(** X19: the signals are stored under [strategyId:symbol].  When no
    strategy id contains a colon, two signals share the key only if they
    share the strategy id and the symbol, so upserting a signal of another
    strategy or symbol never overwrites one; the signal upserted last is the
    one read back, and the enabled flags are untouched. *)
Theorem upsertSignal_keeps_other_signals
    (a b : StrategySignal.t) (s : strategyStore.StrategyState) :
  occurs colon (StrategySignal.strategyId a) = false →
  occurs colon (StrategySignal.strategyId b) = false →
  (StrategySignal.strategyId a, StrategySignal.symbol a)
    ≠ (StrategySignal.strategyId b, StrategySignal.symbol b) →
  let s' := strategyStore.upsertSignal b (strategyStore.upsertSignal a s) in
  strategyStore.signal_key a ≠ strategyStore.signal_key b
  ∧ strategyStore.signals s' !! strategyStore.signal_key a = Some a
  ∧ strategyStore.signals s' !! strategyStore.signal_key b = Some b
  ∧ strategyStore.enabled s' = strategyStore.enabled s.
Proof.
  intros Ha Hb Hne s'.
  assert (Hk : strategyStore.signal_key a ≠ strategyStore.signal_key b).
  { intros He. destruct (signal_key_injective _ _ _ _ Ha Hb He) as [E1 E2].
    apply Hne. by rewrite E1, E2. }
  split; [done |]. subst s'. unfold strategyStore.upsertSignal. simpl.
  split; [| split; [apply lookup_insert_eq | done]].
  rewrite lookup_insert_ne by done. apply lookup_insert_eq.
Qed.

(** ** The wiring *)

Lemma get_prop_absent props key : has_prop props key = false → get_prop props key = JUndefined.
Proof.
  induction props as [| [k v] props IH]; [done |]. simpl.
  intros [Hk Hr]%orb_false_iff. rewrite Hk. by apply IH.
Qed.



(** What the application can do to the manager that [bootstrapStreams]
    keeps to itself: the transport's events and the cleanup. *)
Lemma app_event_cases e :
  is_transport e ∨ e = ECloseAll →
  (∀ g, e ≠ EOnGapDetected g) ∧ (∀ c h, e ≠ ESubscribe c h ∧ e ≠ EDispose c h).
Proof. intros [H | ->]; [by destruct e | done]. Qed.

Section Wiring.

Variable JSON_parse : string → option JSValue.
Variable WebSocket_accepts : string → bool.

Local Abbreviation step' := (step JSON_parse WebSocket_accepts).
Local Abbreviation run' := (run JSON_parse WebSocket_accepts).
Local Abbreviation boot := (bootstrapStreams WebSocket_accepts).

(** [connect] touches the connection map and the sockets only. *)
Lemma connect_manager w ch url :
  handlers (manager (world_after (connect WebSocket_accepts w ch url))) = handlers (manager w)
  ∧ gapHandler (manager (world_after (connect WebSocket_accepts w ch url)))
    = gapHandler (manager w)
  ∧ lastSeq (manager (world_after (connect WebSocket_accepts w ch url))) = lastSeq (manager w).
Proof. unfold connect. by destruct (WebSocket_accepts url). Qed.

Lemma and_then_manager (o : WorldOutcome) (next : World → WorldOutcome) (f : Manager → Prop) :
  f (manager (world_after o)) →
  (∀ w, f (manager w) → f (manager (world_after (next w)))) →
  f (manager (world_after (and_then o next))).
Proof. unfold and_then. destruct (uncaught o); auto. Qed.

Lemma bootstrap_manager base :
  gapHandler (manager (world_after (boot base))) = None
  ∧ lastSeq (manager (world_after (boot base))) = ∅
  ∧ ∀ ch, handlers (manager (world_after (boot base))) !! stream_name ch
          = Some [subscriber_of ch].
Proof.
  unfold bootstrapStreams.
  apply (and_then_manager _ _
           (λ m, gapHandler m = None ∧ lastSeq m = ∅
                 ∧ ∀ ch, handlers m !! stream_name ch = Some [subscriber_of ch])).
  - destruct (connect_manager
                (mkWorld (subscribe (subscribe (subscribe new_WebSocketManager
                   "market" on_market).1 "portfolio" on_portfolio).1 "system" on_system).1 [])
                market (String.append (ws_base base) "/market")) as (-> & -> & ->).
    split; [done |]. split; [done |]. intros ch. destruct ch; vm_compute; reflexivity.
  - intros w Hw.
    apply (and_then_manager _ _
             (λ m, gapHandler m = None ∧ lastSeq m = ∅
                   ∧ ∀ ch, handlers m !! stream_name ch = Some [subscriber_of ch])).
    + by destruct (connect_manager w portfolio (String.append (ws_base base) "/portfolio"))
        as (-> & -> & ->).
    + intros w' Hw'.
      by destruct (connect_manager w' system (String.append (ws_base base) "/system"))
        as (-> & -> & ->).
Qed.

Lemma bootstrap_gapHandler base : gapHandler (manager (world_after (boot base))) = None.
Proof. apply bootstrap_manager. Qed.

Lemma bootstrap_handlers_of base ch :
  handlers_of (manager (world_after (boot base))) (stream_name ch) = [subscriber_of ch].
Proof.
  unfold handlers_of. destruct (bootstrap_manager base) as (_ & _ & ->). done.
Qed.

(** Each socket [bootstrapStreams] created is held in the connection map,
    also when one of the constructors refused its address. *)
Lemma bootstrap_sockets_all_held base : sockets_all_held (world_after (boot base)).
Proof.
  unfold bootstrapStreams, and_then, connect.
  destruct (WebSocket_accepts (String.append (ws_base base) "/market")); cbn;
    [| intros ws s H; by destruct ws].
  destruct (WebSocket_accepts (String.append (ws_base base) "/portfolio")); cbn;
    [| intros ws s H; destruct ws as [| ws]; [by exists "market" | by destruct ws]].
  destruct (WebSocket_accepts (String.append (ws_base base) "/system")); cbn;
    intros ws s H.
  - destruct ws as [| [| [| ws]]]; [by exists "market" | by exists "portfolio"
                                    | by exists "system" | by destruct ws].
  - destruct ws as [| [| ws]]; [by exists "market" | by exists "portfolio" | by destruct ws].
Qed.

Lemma bootstrap_heap_length base :
  uncaught (boot base) = None → length (heap (world_after (boot base))) = 3%nat.
Proof.
  unfold bootstrapStreams, and_then, connect.
  destruct (WebSocket_accepts (String.append (ws_base base) "/market")); cbn; [| done].
  destruct (WebSocket_accepts (String.append (ws_base base) "/portfolio")); cbn; [| done].
  by destruct (WebSocket_accepts (String.append (ws_base base) "/system")).
Qed.

Lemma run_gapHandler es :
  ∀ w, Forall (λ e, ∀ g, e ≠ EOnGapDetected g) es →
       gapHandler (manager (run' w es).1) = gapHandler (manager w).
Proof.
  induction es as [| e es IH]; intros w Hes; [done |].
  apply Forall_cons in Hes as [He Hes]. rewrite run_cons. simpl.
  rewrite IH by done. by apply step_gapHandler.
Qed.

Lemma step_transport_sockets w e :
  is_transport e →
  sockets (manager (world_after (step' w e))) = sockets (manager w)
  ∧ length (heap (world_after (step' w e))) = length (heap w).
Proof.
  destruct e; try done; intros _; simpl.
  - destruct (heap w !! ws) as [s|]; [| done].
    destruct (readyState s); try done. simpl. by rewrite length_alter.
  - by destruct (on_message_manager JSON_parse WebSocket_accepts b w ws raw)
      as (-> & _ & _ & ->).
  - by rewrite length_alter.
Qed.

Lemma run_transport_sockets es :
  ∀ w, Forall is_transport es →
       sockets (manager (run' w es).1) = sockets (manager w)
       ∧ length (heap (run' w es).1) = length (heap w).
Proof.
  induction es as [| e es IH]; intros w Hes; [done |].
  apply Forall_cons in Hes as [He Hes]. rewrite run_cons. simpl.
  destruct (IH (world_after (step' w e)) Hes) as [-> ->].
  by apply step_transport_sockets.
Qed.

Lemma step_all_closed w e :
  all_closed w → is_transport e →
  world_calls (step' w e) = [] ∧ all_closed (world_after (step' w e)).
Proof.
  intros Hc. destruct e; try done; intros _; simpl.
  - destruct (heap w !! ws) as [s|] eqn:Hs; [| done].
    destruct (Hc ws s Hs) as [E | E]; by rewrite E.
  - rewrite on_message_not_open; [done |].
    intros s Hs. destruct (Hc ws s Hs) as [-> | ->]; done.
  - split; [done |]. intros ws' s Hs. rewrite set_readyState_lookup in Hs.
    apply fmap_Some in Hs as (s0 & Hs0 & ->).
    destruct (decide (ws = ws')); [by right | by apply (Hc ws' s0)].
Qed.

Lemma run_all_closed es :
  ∀ w, all_closed w → Forall is_transport es → (run' w es).2 = [].
Proof.
  induction es as [| e es IH]; intros w Hc Hes; [done |].
  apply Forall_cons in Hes as [He Hes]. rewrite run_cons. simpl.
  destruct (step_all_closed w e Hc He) as [-> Hc']. by apply IH.
Qed.

(** X20: the application never learns of a gap.  [bootstrapStreams]
    registers no gap observer and keeps the manager to itself, so whatever
    the transport delivers afterwards, in order or not, no gap signal is ever
    produced. *)
Theorem bootstrapped_manager_never_signals_a_gap
    (VITE_WS_BASE_URL : option string) (es : list Event) :
  Forall (λ e, is_transport e ∨ e = ECloseAll) es →
  gap_calls (run' (world_after (boot VITE_WS_BASE_URL)) es).2 = [].
Proof.
  intros Hes. apply run_no_observer; [apply bootstrap_gapHandler |].
  eapply Forall_impl; [exact Hes |]. intros e He. by apply app_event_cases.
Qed.

(** X21: the cleanup returned by [bootstrapStreams] shuts everything down.
    Whatever the transport did before, after the cleanup none of the
    sockets (three when [bootstrapStreams] returned) is open or connecting,
    the connection map is empty, and no event of the transport makes the
    manager call anybody again. *)
Theorem cleanup_closes_every_connection
    (VITE_WS_BASE_URL : option string) (es : list Event) :
  Forall is_transport es →
  let booted := boot VITE_WS_BASE_URL in
  let w := cleanup (run' (world_after booted) es).1 in
  (∀ ws s, heap w !! ws = Some s → readyState s = CLOSING ∨ readyState s = CLOSED)
  ∧ (uncaught booted = None → length (heap w) = 3%nat)
  ∧ sockets (manager w) = ∅
  ∧ (∀ es', Forall is_transport es' → (run' w es').2 = []).
Proof.
  intros Hes booted w.
  destruct (run_transport_sockets es (world_after booted) Hes) as [Hs Hl].
  assert (Hheld : sockets_all_held (run' (world_after booted) es).1).
  { intros ws s Hws. rewrite Hs.
    assert (Hlt : (ws < length (heap (world_after booted)))%nat).
    { apply lookup_lt_Some in Hws. lia. }
    destruct (lookup_lt_is_Some_2 _ _ Hlt) as [s0 Hs0].
    exact (bootstrap_sockets_all_held VITE_WS_BASE_URL ws s0 Hs0). }
  assert (Hclosed : all_closed w).
  { intros ws s Hws. subst w. unfold cleanup in Hws. simpl in Hws.
    assert (Hlt : (ws < length (heap (run' (world_after booted) es).1))%nat).
    { apply lookup_lt_Some in Hws. by rewrite close_each_length in Hws. }
    destruct (lookup_lt_is_Some_2 _ _ Hlt) as [s0 Hs0].
    destruct (Hheld ws s0 Hs0) as [c Hc].
    eapply close_each_closed; [| exact Hws].
    apply list_elem_of_fmap. exists (c, ws). split; [done |]. by apply elem_of_map_to_list. }
  split; [exact Hclosed |]. split; [| split; [done |]].
  - intros Hret. subst w. unfold cleanup. simpl. rewrite close_each_length, Hl.
    by apply bootstrap_heap_length.
  - intros es' Hes'. by apply run_all_closed.
Qed.

(** X22: in the application every channel has one subscriber.  A validated
    envelope arriving on the open connection of a channel makes the manager
    call the subscriber wired to that channel, once, and nobody else,
    whatever channel the envelope itself names, whatever happened on the
    transport before and whether the subscriber throws or not. *)
Theorem bootstrapped_channel_has_one_subscriber
    (VITE_WS_BASE_URL : option string) (es : list Event) (b : Behaviour)
    (ws : SocketId) (s : Socket) (raw v : JSValue) (env : Envelope) :
  Forall (λ e, is_transport e ∨ e = ECloseAll) es →
  let w := (run' (world_after (boot VITE_WS_BASE_URL)) es).1 in
  heap w !! ws = Some s → readyState s = OPEN →
  decode JSON_parse raw = Some v → envelopeSchema_safeParse v = Some env →
  world_calls (on_message JSON_parse b w ws raw)
  = [HandlerCall (stream_name (ws_channel s)) (subscriber_of (ws_channel s)) env].
Proof.
  intros Hes w Hs Ho Hd Hv.
  rewrite (on_message_open _ _ _ _ _ _ Hs Ho). cbn [world_calls]. cbn zeta.
  rewrite (handleMessage_validated _ _ _ _ _ _ _ Hd Hv).
  rewrite track_no_observer, store_calls.
  - subst w. rewrite handlers_of_run; [rewrite bootstrap_handlers_of |].
    + simpl. by destruct (subscriber_throws b _ env).
    + eapply Forall_impl; [exact Hes |]. intros e He h. by apply app_event_cases.
  - subst w. rewrite run_gapHandler; [apply bootstrap_gapHandler |].
    eapply Forall_impl; [exact Hes |]. intros e He. by apply app_event_cases.
Qed.

(** X24: an envelope without payload passes the schema and then breaks the
    dispatch of the portfolio channel.  In the application, a portfolio
    message that validates and has no [payload] property makes the portfolio
    subscriber throw, whatever its kind, so [handleMessage] ends with that
    exception, after it has stored the sequence of the message. *)
Theorem envelope_without_payload_throws_in_portfolio
    (VITE_WS_BASE_URL : option string) (es : list Event) (b : Behaviour)
    (raw : JSValue) (props : list (string * JSValue)) (env : Envelope) :
  (∀ env', portfolio_subscriber env' = ThrowsTypeError →
           subscriber_throws b on_portfolio env' = true) →
  Forall (λ e, is_transport e ∨ e = ECloseAll) es →
  decode JSON_parse raw = Some (JObject props) →
  has_prop props "payload" = false →
  envelopeSchema_safeParse (JObject props) = Some env →
  let m := manager (run' (world_after (boot VITE_WS_BASE_URL)) es).1 in
  let o := handleMessage JSON_parse b m "portfolio" raw in
  thrown o = Some (SubscriberThrew on_portfolio)
  ∧ calls o = [HandlerCall "portfolio" on_portfolio env]
  ∧ payload env = JUndefined
  ∧ portfolio_subscriber env = ThrowsTypeError
  ∧ lastSeq (after o) !! "portfolio" = Some (sequence env).
Proof.
  intros Hbody Hes Hd Hno Hv m o.
  assert (Hp : payload env = JUndefined).
  { apply safeParse_Some in Hv as (props' & [= <-] & _ & _ & _ & ->).
    by apply get_prop_absent. }
  assert (Hbreaks : portfolio_subscriber env = ThrowsTypeError).
  { unfold portfolio_subscriber, toOrderEvent, toPositionSnapshot. rewrite Hp.
    by destruct (String.eqb (kind env) "position_snapshot"). }
  assert (Hthrows : subscriber_throws b on_portfolio env = true) by (by apply Hbody).
  assert (Hg : gapHandler m = None).
  { subst m. rewrite run_gapHandler; [apply bootstrap_gapHandler |].
    eapply Forall_impl; [exact Hes |]. intros e He. by apply app_event_cases. }
  assert (Hh : handlers_of m "portfolio" = [on_portfolio]).
  { subst m. rewrite handlers_of_run; [apply (bootstrap_handlers_of _ portfolio) |].
    eapply Forall_impl; [exact Hes |]. intros e He h. by apply app_event_cases. }
  subst o. rewrite (handleMessage_validated _ _ _ _ _ _ _ Hd Hv).
  rewrite track_no_observer, store_calls, store_thrown, store_lastSeq, Hh by done.
  unfold first_thrower. simpl. by rewrite Hthrows.
Qed.

(** X25: [bootstrapStreams] stops at the first address the constructor of
    the socket refuses.  It returns (and hands out the cleanup) exactly when
    the three addresses are accepted; otherwise it throws what [connect]
    threw, the later connections are not attempted, and the sockets created
    before stay as they are, connecting, in a manager nobody holds: when the
    portfolio address is the first one refused, the market socket is the only
    one. *)
Theorem bootstrapStreams_stops_at_the_first_refusal (VITE_WS_BASE_URL : option string) :
  let base := ws_base VITE_WS_BASE_URL in
  let o := boot VITE_WS_BASE_URL in
  (uncaught o = None
   ↔ WebSocket_accepts (String.append base "/market") = true
     ∧ WebSocket_accepts (String.append base "/portfolio") = true
     ∧ WebSocket_accepts (String.append base "/system") = true)
  ∧ (uncaught o = None ∨ uncaught o = Some DOMException)
  ∧ world_calls o = []
  ∧ heap (world_after o)
      `prefix_of` [mkSocket (String.append base "/market") market CONNECTING;
                   mkSocket (String.append base "/portfolio") portfolio CONNECTING;
                   mkSocket (String.append base "/system") system CONNECTING]
  ∧ (WebSocket_accepts (String.append base "/market") = true →
     WebSocket_accepts (String.append base "/portfolio") = false →
       uncaught o = Some DOMException
       ∧ heap (world_after o) = [mkSocket (String.append base "/market") market CONNECTING]
       ∧ sockets (manager (world_after o)) !! "market" = Some 0%nat
       ∧ sockets (manager (world_after o)) !! "system" = None).
Proof.
  intros base o. subst o. unfold bootstrapStreams, and_then, connect. fold base.
  destruct (WebSocket_accepts (String.append base "/market")); cbn.
  - destruct (WebSocket_accepts (String.append base "/portfolio")); cbn.
    + destruct (WebSocket_accepts (String.append base "/system")); cbn.
      * split; [done |]. split; [by left |]. split; [done |]. split; [done |]. done.
      * split; [split; [done | by intros (_ & _ & ?)] |]. split; [by right |].
        split; [done |]. split; [by eexists [_] |]. done.
    + split; [split; [done | by intros (_ & ? & _)] |]. split; [by right |].
      split; [done |]. split; [by eexists [_; _] |]. done.
  - split; [split; [done | by intros (? & _)] |]. split; [by right |].
    split; [done |]. split; [by eexists [_; _; _] |]. done.
Qed.

End Wiring.



(** ** Instances of the further properties *)

Ltac each_event tac := repeat (constructor; [tac |]); constructor.

(** The observer throws on the first of three messages out of order: that
    sequence is not stored, so the second message, which repeats the stored
    sequence, is reported against it. *)
Example blocked_sequence_is_not_stored :
  sequences_on "market"
    (acceptances Wire.JSON_parse Wire.WebSocket_accepts after_first_session disorder_blocked)
  = [1; 5]
  ∧ gaps_on "market" (wire_run after_first_session disorder_blocked).2
    = [(spy, (2, 3)); (spy, (2, 1)); (spy, (2, 5))]
  ∧ lastSeq (manager (wire_run after_first_session disorder_blocked).1) !! "market" = Some 5.
Proof. vm_compute. repeat split. Qed.

(** Subscribers of the application at work on payloads that do not have the
    shape of their type. *)
Example subscribers_on_odd_payloads :
  market_subscriber (mkEnvelope "tick" market 1 JNull) = ThrowsTypeError
  ∧ market_subscriber (mkEnvelope "tick" market 1 (JNumber zero))
    = Forwards (UpsertTick (JNumber zero))
  ∧ market_subscriber
      (mkEnvelope "tick" market 1
         (JObject [("symbol", JObject [("toString", JNumber zero)])])) = ThrowsTypeError
  ∧ portfolio_subscriber (mkEnvelope "position_snapshot" portfolio 1 (JObject []))
    = ThrowsTypeError
  ∧ portfolio_subscriber (mkEnvelope "position_snapshot" portfolio 1 (JArray [JNull]))
    = ThrowsTypeError
  ∧ portfolio_subscriber (mkEnvelope "order" portfolio 1 (JArray []))
    = Forwards (UpsertOrder (JArray []))
  ∧ system_subscriber (mkEnvelope "alert" system 1 JUndefined) = Forwards (AddAlert JUndefined).
Proof. vm_compute. repeat split. Qed.


Lemma gap_signals_are_the_mismatches_witness :
  gaps_on "market" (wire_run after_first_session disorder).2
  = [(spy, (2, 3)); (spy, (4, 1)); (spy, (2, 5))].
Proof.
  destruct (gap_signals_are_the_mismatches Wire.JSON_parse Wire.WebSocket_accepts
              after_first_session spy disorder "market") as [Hgaps _].
  - vm_compute. reflexivity.
  - each_event ltac:(intros g'; discriminate).
  - each_event ltac:(intros g c x y; reflexivity).
  - unfold wire_run. rewrite Hgaps. vm_compute. reflexivity.
Defined.

Lemma stored_sequences_stay_valid_witness :
  sequences_valid (manager (wire_run new_World (first_session ++ disorder_blocked)).1).
Proof.
  apply (stored_sequences_stay_valid Wire.JSON_parse Wire.WebSocket_accepts new_World
           (first_session ++ disorder_blocked)).
  intros c n H. simpl in H. rewrite lookup_empty in H. discriminate.
Defined.

Lemma connection_map_stays_valid_witness :
  sockets_valid (wire_run new_World (first_session ++ reconnection)).1.
Proof.
  apply (connection_map_stays_valid Wire.JSON_parse Wire.WebSocket_accepts new_World
           (first_session ++ reconnection)).
  intros c ws H. simpl in H. rewrite lookup_empty in H. discriminate.
Defined.

Lemma connect_leaves_the_replaced_socket_witness :
  let w := closeAll (world_after (connect Wire.WebSocket_accepts after_first_session market
                                    market_url)) in
  (readyState <$> heap w) = [OPEN; CLOSING]
  ∧ heap w !! 0%nat = Some (mkSocket market_url market OPEN)
  ∧ sockets (manager w) = ∅.
Proof.
  split; [vm_compute; reflexivity |].
  destruct (connect_leaves_the_replaced_socket Wire.JSON_parse Wire.WebSocket_accepts
              after_first_session market market_url 0%nat
              (mkSocket market_url market OPEN)) as [Hacc _].
  - apply run_sockets_valid. intros c ws H. simpl in H. rewrite lookup_empty in H.
    discriminate.
  - vm_compute. reflexivity.
  - vm_compute. reflexivity.
  - destruct Hacc as (_ & _ & _ & Hkeep & Hmap & _); [vm_compute; reflexivity |].
    split; [exact Hkeep | exact Hmap].
Defined.

Lemma subscriptions_survive_reconnection_witness :
  handlers_of (manager (wire_run after_first_session reconnection).1) "market"
  = [first_handler].
Proof.
  unfold wire_run.
  rewrite (subscriptions_survive_reconnection Wire.JSON_parse Wire.WebSocket_accepts
             after_first_session reconnection "market").
  - vm_compute. reflexivity.
  - each_event ltac:(intros h; split; discriminate).
Defined.

Lemma closeAll_closes_every_held_socket_witness :
  Forall (λ s, readyState s = CLOSING ∨ readyState s = CLOSED) (heap (closeAll application))
  ∧ closeAll (closeAll application) = closeAll application.
Proof.
  destruct (closeAll_closes_every_held_socket application) as [Hclosed Htwice].
  - apply bootstrap_sockets_all_held.
  - split; [| exact Htwice]. apply Forall_lookup. exact Hclosed.
Defined.

Lemma throwing_subscriber_cuts_the_dispatch_witness :
  let o := handleMessage Wire.JSON_parse first_throws watched "market" (JString tick1_text) in
  thrown o = Some (SubscriberThrew first_handler)
  ∧ invoked (calls o) = [("market", first_handler, tick_envelope 1)]
  ∧ lastSeq (after o) !! "market" = Some 1.
Proof.
  pose proof (throwing_subscriber_cuts_the_dispatch Wire.JSON_parse first_throws
                watched "market" (JString tick1_text) (tick 1) (tick_envelope 1)
                [] [second_handler] first_handler
                eq_refl eq_refl eq_refl (List.Forall_nil _) eq_refl (λ _ _ _, eq_refl))
    as (Hf & Hi & _ & _ & Hl).
  split; [exact Hf |]. split; [exact Hi | exact Hl].
Defined.

Lemma throwing_observer_blocks_the_envelope_witness :
  handleMessage Wire.JSON_parse observer_fails (onGapDetected unwatched spy) "market"
    (JString tick3_text)
  = mkOutcome (onGapDetected unwatched spy) [GapCall spy "market" 2 3]
              (Some (ObserverThrew spy)).
Proof.
  apply (throwing_observer_blocks_the_envelope Wire.JSON_parse observer_fails
           (onGapDetected unwatched spy) "market" (JString tick3_text) (tick 3)
           (tick_envelope 3) spy 1).
  - vm_compute. reflexivity.
  - vm_compute. reflexivity.
  - reflexivity.
  - vm_compute. reflexivity.
  - vm_compute. discriminate.
  - reflexivity.
Defined.

Lemma addAlert_keeps_the_newest_witness :
  alertStore.alerts
    (foldl (λ s a, alertStore.addAlert a s) alertStore.initial
           [sample_alert "a1"; sample_alert "a2"])
  = [sample_alert "a2"; sample_alert "a1"].
Proof.
  apply (addAlert_keeps_the_newest alertStore.initial [sample_alert "a1"; sample_alert "a2"]).
  simpl. lia.
Defined.

Lemma upsertOrder_keeps_latest_per_id_witness :
  orderStore.history
    (foldl (λ s o, orderStore.upsertOrder o s) orderStore.initial
           [sample_order "o1" PENDING; sample_order "o1" FILLED])
  = [sample_order "o1" FILLED; sample_order "o1" PENDING].
Proof.
  apply (upsertOrder_keeps_latest_per_id orderStore.initial
           [sample_order "o1" PENDING; sample_order "o1" FILLED]).
  simpl. lia.
Defined.

Lemma upsertSignal_keeps_other_signals_witness :
  let s := strategyStore.upsertSignal (sample_signal "trend" "ETH-USD")
             (strategyStore.upsertSignal (sample_signal "trend" "BTC-USD")
                                         strategyStore.initial) in
  strategyStore.signals s !! "trend:BTC-USD" = Some (sample_signal "trend" "BTC-USD").
Proof.
  apply (upsertSignal_keeps_other_signals (sample_signal "trend" "BTC-USD")
           (sample_signal "trend" "ETH-USD") strategyStore.initial).
  - vm_compute. reflexivity.
  - vm_compute. reflexivity.
  - simpl. intros H. discriminate H.
Defined.

Lemma bootstrapped_manager_never_signals_a_gap_witness :
  gap_calls (wire_run application
               [EOpened 0%nat; EMessage 0%nat (JString tick1_text) wired;
                EMessage 0%nat (JString tick5_text) wired; ECloseAll]).2 = [].
Proof.
  apply (bootstrapped_manager_never_signals_a_gap Wire.JSON_parse Wire.WebSocket_accepts None).
  each_event ltac:(first [left; exact I | right; reflexivity]).
Defined.

Lemma cleanup_closes_every_connection_witness :
  readyState <$> heap (cleanup (wire_run application portfolio_traffic).1)
  = [CLOSING; CLOSING; CLOSING]
  ∧ ∀ es', Forall is_transport es' →
      (wire_run (cleanup (wire_run application portfolio_traffic).1) es').2 = [].
Proof.
  split; [vm_compute; reflexivity |].
  apply (cleanup_closes_every_connection Wire.JSON_parse Wire.WebSocket_accepts None
           portfolio_traffic).
  each_event ltac:(exact I).
Defined.

(** A market tick arriving on the portfolio connection goes to the
    portfolio subscriber. *)
Lemma bootstrapped_channel_has_one_subscriber_witness :
  world_calls
    (on_message Wire.JSON_parse wired (wire_run application portfolio_traffic).1
       1%nat (JString tick6_text))
  = [HandlerCall "portfolio" on_portfolio (tick_envelope 6)].
Proof.
  apply (bootstrapped_channel_has_one_subscriber Wire.JSON_parse Wire.WebSocket_accepts None
           portfolio_traffic wired
           1%nat (mkSocket "ws://localhost:8000/ws/portfolio" portfolio OPEN)
           (JString tick6_text) (tick 6) (tick_envelope 6)).
  - each_event ltac:(left; exact I).
  - vm_compute. reflexivity.
  - reflexivity.
  - vm_compute. reflexivity.
  - vm_compute. reflexivity.
Defined.

Lemma envelope_without_payload_throws_in_portfolio_witness :
  thrown (handleMessage Wire.JSON_parse wired
            (manager (wire_run application portfolio_traffic).1)
            "portfolio" (JString bare_order_text))
  = Some (SubscriberThrew on_portfolio).
Proof.
  apply (envelope_without_payload_throws_in_portfolio Wire.JSON_parse Wire.WebSocket_accepts
           None portfolio_traffic wired (JString bare_order_text) bare_order_props
           (mkEnvelope "order" portfolio 4 JUndefined)).
  - intros env' H. simpl. by rewrite H.
  - each_event ltac:(left; exact I).
  - vm_compute. reflexivity.
  - vm_compute. reflexivity.
  - vm_compute. reflexivity.
Defined.
